(** * wildcard.py: unrolling discontiguous IPv4 wildcard masks

    A shallow embedding of [src/wildcard.py] and the properties of its
    three stages: the scan for runs of set bits ([contiguous_bits]), the
    enumeration of every value of those runs ([unroller]) and the
    construction of the resulting networks ([unroll]).

    Python integers are unbounded, so they are modelled as [Z]; the 32-bit
    width only shows in the constants the script uses.  Exceptions are
    modelled with a small error monad. *)

From Stdlib Require Import String Ascii ZArith List Bool Lia FinFun Sorted.
Import ListNotations.

Local Open Scope Z_scope.

(** ** Exceptions *)

Inductive exn : Type :=
| IndexError          (* list index out of range *)
| TypeError           (* range() given a float *)
| ValueError          (* negative shift count, host bits set *)
| SocketError         (* socket.error: illegal IP address string *)
| AddressValueError   (* ipaddress: integer outside [0, 2^32) *)
| NetmaskValueError.  (* ipaddress: prefix length outside [0, 32] *)

Inductive result (A : Type) : Type :=
| Ok (a : A)
| Raise (e : exn).

Arguments Ok {A} a.
Arguments Raise {A} e.

Definition bind {A B : Type} (m : result A) (k : A -> result B) : result B :=
  match m with
  | Ok a => k a
  | Raise e => Raise e
  end.

Notation "x <- m ;; k" := (bind m (fun x => k))
  (at level 61, m at next level, right associativity).

(** Runs [f] on the elements from left to right and stops at the first one
    that raises: the shape of a [for] loop whose body appends one value. *)
Fixpoint mapM {A B : Type} (f : A -> result B) (l : list A) : result (list B) :=
  match l with
  | [] => Ok []
  | a :: l' =>
      b <- f a ;;
      bs <- mapM f l' ;;
      Ok (b :: bs)
  end.

(** ** Python primitives *)

(** [range(lo, hi)]: empty when [hi <= lo]. *)
Definition py_range (lo hi : Z) : list Z :=
  map (fun i => lo + Z.of_nat i) (seq 0 (Z.to_nat (hi - lo))).

(** [a >> n] and [a << n] raise ValueError on a negative shift count. *)
Definition py_rshift (a n : Z) : result Z :=
  if n <? 0 then Raise ValueError else Ok (Z.shiftr a n).

Definition py_lshift (a n : Z) : result Z :=
  if n <? 0 then Raise ValueError else Ok (Z.shiftl a n).

(** [range(0, 2**bits)]: [2**bits] is a float when [bits] is negative and
    [range] refuses it. *)
Definition py_range_pow2 (bits : Z) : result (list Z) :=
  if bits <? 0 then Raise TypeError else Ok (py_range 0 (2 ^ bits)).

(** [ranges[-1]] *)
Definition py_last {A : Type} (l : list A) : result A :=
  match rev l with
  | [] => Raise IndexError
  | a :: _ => Ok a
  end.

(** ** mask_from_slash (lines 8-15) *)

Definition mask_from_slash (slash : Z) : Z :=
  fold_left (fun mask _bit => Z.lor (Z.shiftr mask 1) 0x80000000)
            (py_range 0 slash) 0x00000000.

(** ** ip2long (lines 17-22)

    [socket.inet_aton] belongs to the C library.  It is modelled on
    canonical dotted-decimal quads: four fields separated by dots, each a
    decimal number from 0 to 255 written without a leading zero.  The other
    forms the C function accepts (octal and hexadecimal fields, fewer than
    four fields) are not covered and are reported as [SocketError]. *)

Fixpoint split_dots (cur : list ascii) (s : string) : list (list ascii) :=
  match s with
  | EmptyString => [rev cur]
  | String c s' =>
      if Ascii.eqb c "."%char then rev cur :: split_dots [] s'
      else split_dots (c :: cur) s'
  end.

Definition digit_value (c : ascii) : option Z :=
  let n := Z.of_nat (nat_of_ascii c) in
  if (48 <=? n) && (n <=? 57) then Some (n - 48) else None.

Fixpoint decimal_value (acc : Z) (field : list ascii) : option Z :=
  match field with
  | [] => Some acc
  | c :: field' =>
      match digit_value c with
      | Some d => decimal_value (10 * acc + d) field'
      | None => None
      end
  end.

Definition parse_octet (field : list ascii) : option Z :=
  match field with
  | [] => None
  | c :: rest =>
      if Ascii.eqb c "0"%char && negb (Nat.eqb (List.length rest) 0) then None
      else if Nat.ltb 3 (List.length field) then None
      else match decimal_value 0 field with
           | Some v => if v <=? 255 then Some v else None
           | None => None
           end
  end.

Definition inet_aton (ip : string) : result (list Z) :=
  match map parse_octet (split_dots [] ip) with
  | [Some a; Some b; Some c; Some d] => Ok [a; b; c; d]
  | _ => Raise SocketError
  end.

(** [struct.unpack("!L", packed)[0]]: four bytes, big-endian, unsigned. *)
Definition unpack_be32 (packed : list Z) : Z :=
  fold_left (fun acc byte => Z.lor (Z.shiftl acc 8) byte) packed 0.

Definition ip2long (ip : string) : result Z :=
  packedIP <- inet_aton ip ;;
  Ok (unpack_be32 packedIP).

(** ** is_bit_on (lines 24-29)

    Every call in the script passes [1 <= bit <= 32], so the shift count is
    never negative. *)

Definition is_bit_on (number bit : Z) : bool :=
  negb (Z.land number (Z.shiftl 1 (32 - bit)) =? 0).

(** ** contiguous_bits (lines 31-50)

    [start] and [end] are assigned together ([None, None] at lines 37 and
    47, [bit, bit] at lines 43-44) except at line 41, which runs only when
    [start] is already set; the pair is therefore kept as one optional
    value.  The tests [if start] and [elif end] are Python truth tests:
    [None] and [0] are false. *)

Definition BitRange : Type := (Z * Z)%type.

Definition truthy (v : option Z) : bool :=
  match v with
  | Some n => negb (n =? 0)
  | None => false
  end.

Definition scan_state : Type := (list BitRange * option BitRange)%type.

Definition scan_step (mask : Z) (st : scan_state) (bit : Z) : scan_state :=
  let '(ranges, open) := st in
  if is_bit_on mask bit then
    if truthy (option_map fst open) then
      (ranges, option_map (fun r => (fst r, bit)) open)
    else
      (ranges, Some (bit, bit))
  else if truthy (option_map snd open) then
    (ranges ++ match open with Some r => [r] | None => [] end, None)
  else
    (ranges, open).

Definition scan_finish (st : scan_state) : list BitRange :=
  let '(ranges, open) := st in
  if truthy (option_map snd open) then
    ranges ++ match open with Some r => [r] | None => [] end
  else ranges.

Definition contiguous_bits (mask : Z) : list BitRange :=
  scan_finish (fold_left (scan_step mask) (py_range 1 33) ([], None)).

(** ** unroller (lines 52-68) *)

(** The body of the inner loop, lines 66-67. *)
Definition candidate (start end_ prefix field : Z) : result Z :=
  low <- py_rshift (mask_from_slash 32) end_ ;;
  let mask := Z.lor (mask_from_slash (start - 1)) low in
  shifted <- py_lshift field (32 - end_) ;;
  Ok (Z.lor (Z.land prefix mask) shifted).

(** The inner loop, lines 65-67, for one prefix. *)
Definition expand_prefix (start end_ : Z) (prefix : Z) : result (list Z) :=
  let bits := end_ - start + 1 in
  fields <- py_range_pow2 bits ;;
  mapM (candidate start end_ prefix) fields.

(** Both loops, lines 64-67: the appended values in order. *)
Definition expand_range (rng : BitRange) (prefixes : list Z) : result (list Z) :=
  let '(start, end_) := rng in
  groups <- mapM (expand_prefix start end_) prefixes ;;
  Ok (concat groups).

Fixpoint unroller (ranges : list BitRange) (prefixes : list Z) : result (list Z) :=
  match ranges with
  | [] => Ok prefixes
  | rng :: ranges' =>
      unrolled <- expand_range rng prefixes ;;
      unroller ranges' unrolled
  end.

(** ** ipaddress.IPv4Network

    The constructor of the [ipaddress] package, for the two argument forms
    the script uses: an integer (a single host, prefix length 32) and a
    pair [(address, prefixlen)], checked strictly. *)

Record IPv4Network : Type := mkNetwork {
  network_address : Z;
  prefixlen : Z
}.

Definition ALL_ONES : Z := 0xFFFFFFFF.

Definition IPv4Address (address : Z) : result Z :=
  if (address <? 0) || (ALL_ONES <? address) then Raise AddressValueError
  else Ok address.

Definition ip_int_from_prefix (prefixlen : Z) : Z :=
  Z.lxor ALL_ONES (Z.shiftr ALL_ONES prefixlen).

(** [_make_netmask]: the netmask and the prefix length *)
Definition make_netmask (arg : Z) : result (Z * Z) :=
  if (0 <=? arg) && (arg <=? 32) then Ok (ip_int_from_prefix arg, arg)
  else Raise NetmaskValueError.

Definition IPv4Network_of_int (address : Z) : result IPv4Network :=
  a <- IPv4Address address ;;
  nm <- make_netmask 32 ;;
  Ok (mkNetwork a (snd nm)).

Definition IPv4Network_of_pair (address prefix : Z) : result IPv4Network :=
  a <- IPv4Address address ;;
  nm <- make_netmask prefix ;;
  if Z.land a (fst nm) =? a then Ok (mkNetwork a (snd nm))
  else Raise ValueError.

(** ** unroll (lines 70-96) *)

(** The loop of lines 87-94 for one address. *)
Definition process (rng : option BitRange) (address : Z) : result IPv4Network :=
  match rng with
  | Some (start, end_) =>
      let network := Z.land address (mask_from_slash (start - 1)) in
      IPv4Network_of_pair network (start - 1)
  | None => IPv4Network_of_int address
  end.

Definition normalize (rng : option BitRange) (unrolled : list Z)
  : result (list IPv4Network) :=
  mapM (process rng) unrolled.

Definition unroll (addr mask : string) : result (list IPv4Network) :=
  addr_as_long <- ip2long addr ;;
  mask_as_long <- ip2long mask ;;
  let ranges := contiguous_bits mask_as_long in
  last_rng <- py_last ranges ;;
  let '(rng, ranges) :=
    if snd last_rng =? 32 then (Some last_rng, removelast ranges)
    else (None, ranges) in
  unrolled <- unroller ranges [addr_as_long] ;;
  normalize rng unrolled.

(** * Vocabulary of the properties *)

(** Decides an equation between boolean comparisons of integers by cases
    on every comparison. *)
Ltac cmp_cases :=
  repeat match goal with
    | |- context [?a <=? ?b] => destruct (Z.leb_spec a b)
    | |- context [?a <? ?b] => destruct (Z.ltb_spec a b)
    | |- context [?a =? ?b] => destruct (Z.eqb_spec a b)
    end;
  simpl; try reflexivity; try lia; try (exfalso; lia).

Definition covers (r : BitRange) (pos : Z) : Prop := fst r <= pos <= snd r.

(** The later range starts after at least one clear bit past the earlier. *)
Definition gap (r1 r2 : BitRange) : Prop := snd r1 + 1 < fst r2.

Definition open_list (open : option BitRange) : list BitRange :=
  match open with Some r => [r] | None => [] end.

(** Every range held by a scan state, closed ones first. *)
Definition held (st : scan_state) : list BitRange := fst st ++ open_list (snd st).

(** The state of the scan once positions [1..k] are read. *)
Definition scan (mask : Z) (k : nat) : scan_state :=
  fold_left (scan_step mask) (py_range 1 (Z.of_nat k + 1)) ([], None).

Record scan_inv (mask k : Z) (st : scan_state) : Prop := {
  inv_shape : Forall (fun r => 1 <= fst r <= snd r /\ snd r <= k) (held st);
  inv_left : Forall (fun r => fst r = 1 \/ is_bit_on mask (fst r - 1) = false)
                    (held st);
  inv_closed : Forall (fun r => snd r < k /\ is_bit_on mask (snd r + 1) = false)
                      (fst st);
  inv_open : forall r, snd st = Some r -> snd r = k;
  inv_gap : ForallOrdPairs gap (held st);
  inv_cover : forall pos, 1 <= pos <= k ->
      (is_bit_on mask pos = true <-> Exists (fun r => covers r pos) (held st))
}.

(** OR-ing one bit per position back into a mask *)
Definition range_positions (r : BitRange) : list Z := py_range (fst r) (snd r + 1).

Definition or_positions (positions : list Z) (mask : Z) : Z :=
  fold_left (fun m pos => Z.lor m (Z.shiftl 1 (32 - pos))) positions mask.

Definition or_ranges (ranges : list BitRange) : Z :=
  or_positions (flat_map range_positions ranges) 0.

Definition valid_range (r : BitRange) : Prop := 1 <= fst r <= snd r /\ snd r <= 32.

Definition width (r : BitRange) : Z := snd r - fst r + 1.

Definition total_width (ranges : list BitRange) : Z :=
  fold_right (fun r w => width r + w) 0 ranges.

Definition disjoint (r1 r2 : BitRange) : Prop :=
  snd r1 < fst r2 \/ snd r2 < fst r1.

(** The mask of line 66 and the value appended at line 67, as they come out
    when no shift raises. *)
Definition preservation_mask (start end_ : Z) : Z :=
  Z.lor (mask_from_slash (start - 1)) (Z.shiftr (mask_from_slash 32) end_).

Definition substitute (start end_ prefix field : Z) : Z :=
  Z.lor (Z.land prefix (preservation_mask start end_)) (Z.shiftl field (32 - end_)).

(** What the two loops append for the range [r]: one group per prefix, the
    fields of a group in ascending order. *)
Definition expand_step (r : BitRange) (prefixes : list Z) : list Z :=
  flat_map (fun prefix =>
              map (substitute (fst r) (snd r) prefix) (py_range 0 (2 ^ width r)))
           prefixes.

Definition expansion (ranges : list BitRange) (prefixes : list Z) : list Z :=
  fold_left (fun ps r => expand_step r ps) ranges prefixes.

(** Two values agree on every position that no range of [ranges] covers. *)
Definition agree_outside (ranges : list BitRange) (a b : Z) : Prop :=
  forall pos, 1 <= pos <= 32 ->
    (forall r, In r ranges -> ~ covers r pos) ->
    Z.testbit a (32 - pos) = Z.testbit b (32 - pos).

(** The preservation mask and the candidate in the words of the design:
    the bits above [start] come from [mask_from_slash (start - 1)], the
    bits below [end] from the 32-bit complement of [mask_from_slash end]. *)
Definition complement32 (m : Z) : Z := Z.land (Z.lnot m) 0xFFFFFFFF.

Definition spec_preservation_mask (start end_ : Z) : Z :=
  Z.lor (mask_from_slash (start - 1)) (complement32 (mask_from_slash end_)).

Definition spec_candidate (start end_ seed field : Z) : Z :=
  Z.lor (Z.land seed (spec_preservation_mask start end_))
        (Z.shiftl field (32 - end_)).

(** The ranges [unroll] expands: all but a trailing one. *)
Definition expanded_ranges (mask : Z) : list BitRange :=
  match py_last (contiguous_bits mask) with
  | Ok (_, end_) =>
      if end_ =? 32 then removelast (contiguous_bits mask)
      else contiguous_bits mask
  | Raise _ => []
  end.

(** The prefix length of the results: that of a host, or the one the
    trailing range leaves. *)
Definition result_prefixlen (mask : Z) : Z :=
  match py_last (contiguous_bits mask) with
  | Ok (start, end_) => if end_ =? 32 then start - 1 else 32
  | Raise _ => 32
  end.

(** An address matches the wildcard when it has the bits of the base
    address wherever the mask has a clear bit. *)
Definition wildcard_match (addr mask x : Z) : Prop :=
  forall pos, 1 <= pos <= 32 ->
    is_bit_on mask pos = false -> is_bit_on x pos = is_bit_on addr pos.

(** An address belongs to a network when the netmask of the prefix length
    maps it to the network address. *)
Definition in_network (n : IPv4Network) (x : Z) : Prop :=
  Z.land x (ip_int_from_prefix (prefixlen n)) = network_address n.

(** * Properties *)

(** ** Ranges of integers *)

Lemma py_range_In (lo hi x : Z) : In x (py_range lo hi) <-> lo <= x < hi.
Proof.
  unfold py_range. rewrite in_map_iff. split.
  - intros [i [<- Hi]]. apply in_seq in Hi. lia.
  - intros H. exists (Z.to_nat (x - lo)). split; [lia|].
    apply in_seq. lia.
Qed.

Lemma py_range_length (lo hi : Z) :
  List.length (py_range lo hi) = Z.to_nat (hi - lo).
Proof. unfold py_range. now rewrite length_map, length_seq. Qed.

Lemma py_range_snoc (lo hi : Z) :
  lo <= hi -> py_range lo (hi + 1) = py_range lo hi ++ [hi].
Proof.
  intros H. unfold py_range.
  replace (Z.to_nat (hi + 1 - lo)) with (Z.to_nat (hi - lo) + 1)%nat by lia.
  rewrite seq_app, map_app. simpl. do 3 f_equal. lia.
Qed.

Lemma py_range_empty (lo hi : Z) : hi <= lo -> py_range lo hi = [].
Proof.
  intros H. unfold py_range.
  replace (Z.to_nat (hi - lo)) with 0%nat by lia. reflexivity.
Qed.

Lemma py_range_NoDup (lo hi : Z) : NoDup (py_range lo hi).
Proof.
  unfold py_range. apply Injective_map_NoDup; [|apply seq_NoDup].
  intros i j H. lia.
Qed.

(** ** Bits of 32-bit values *)

Lemma bits_above (x n i : Z) :
  0 <= x < 2 ^ n -> n <= i -> Z.testbit x i = false.
Proof.
  intros Hx Hi.
  destruct (Z.eq_dec x 0) as [->|Hnz]; [apply Z.bits_0|].
  apply Z.bits_above_log2; [lia|].
  assert (0 <= n) by (destruct (Z.le_gt_cases 0 n); [lia|];
                      rewrite Z.pow_neg_r in Hx; lia).
  apply Z.lt_le_trans with n; [|lia].
  apply Z.log2_lt_pow2; lia.
Qed.

Lemma bits_bound (x n : Z) :
  0 <= x -> 0 <= n -> (forall i, n <= i -> Z.testbit x i = false) -> x < 2 ^ n.
Proof.
  intros Hx Hn H.
  assert (E : x = x mod 2 ^ n).
  { apply Z.bits_inj'. intros i Hi.
    destruct (Z.lt_ge_cases i n).
    - now rewrite Z.mod_pow2_bits_low.
    - rewrite Z.mod_pow2_bits_high by lia. now apply H. }
  rewrite E. apply Z.mod_pos_bound. apply Z.pow_pos_nonneg; lia.
Qed.

Lemma is_bit_on_testbit (number bit : Z) :
  bit <= 32 -> is_bit_on number bit = Z.testbit number (32 - bit).
Proof.
  intros H. unfold is_bit_on.
  rewrite Z.shiftl_1_l.
  destruct (Z.testbit number (32 - bit)) eqn:E.
  - destruct (Z.eqb_spec (Z.land number (2 ^ (32 - bit))) 0) as [H0|]; [|reflexivity].
    assert (F : Z.testbit (Z.land number (2 ^ (32 - bit))) (32 - bit) = false)
      by (rewrite H0; apply Z.bits_0).
    rewrite Z.land_spec, E, Z.pow2_bits_true in F by lia. discriminate.
  - destruct (Z.eqb_spec (Z.land number (2 ^ (32 - bit))) 0) as [|H0]; [reflexivity|].
    exfalso. apply H0. apply Z.bits_inj'. intros i Hi.
    rewrite Z.land_spec, Z.bits_0, Z.pow2_bits_eqb by lia.
    destruct (Z.eqb_spec (32 - bit) i) as [<-|]; [now rewrite E|apply andb_false_r].
Qed.

(** ** mask_from_slash *)

Lemma fold_left_ignore {A B : Type} (f : A -> A) (l : list B) (a : A) :
  fold_left (fun acc _ => f acc) l a = Nat.iter (List.length l) f a.
Proof.
  revert a. induction l as [|b l IH]; intros a; [reflexivity|].
  simpl fold_left. rewrite IH. simpl List.length.
  now rewrite Nat.iter_succ_r.
Qed.

Lemma mask_from_slash_iter (slash : Z) :
  mask_from_slash slash =
  Nat.iter (Z.to_nat slash) (fun mask => Z.lor (Z.shiftr mask 1) 0x80000000) 0.
Proof.
  unfold mask_from_slash. rewrite fold_left_ignore, py_range_length.
  now rewrite Z.sub_0_r.
Qed.

Lemma mask_from_slash_testbit (slash i : Z) :
  0 <= i ->
  Z.testbit (mask_from_slash slash) i = (32 - slash <=? i) && (i <? 32) && (0 <? slash).
Proof.
  rewrite mask_from_slash_iter.
  destruct (Z.le_gt_cases slash 0) as [Hs|Hs].
  { replace (Z.to_nat slash) with 0%nat by lia. simpl. intros _.
    rewrite Z.bits_0. destruct (Z.ltb_spec 0 slash); [lia|].
    now rewrite andb_false_r. }
  replace (0 <? slash) with true by (symmetry; apply Z.ltb_lt; lia).
  rewrite andb_true_r.
  rewrite <- (Z2Nat.id slash) at 2 by lia.
  generalize (Z.to_nat slash) as k. clear Hs slash. intros k. revert i.
  induction k as [|k IH]; intros i Hi.
  - simpl. rewrite Z.bits_0. lia.
  - rewrite Nat.iter_succ, Z.lor_spec, Z.shiftr_spec, IH by lia.
    change 0x80000000 with (2 ^ 31). rewrite Z.pow2_bits_eqb by lia.
    cmp_cases.
Qed.

Lemma mask_from_slash_nonneg (slash : Z) : 0 <= mask_from_slash slash.
Proof.
  rewrite mask_from_slash_iter. generalize (Z.to_nat slash) as k.
  induction k as [|k IH]; [simpl; lia|].
  rewrite Nat.iter_succ. apply Z.lor_nonneg. split; [|lia].
  now apply Z.shiftr_nonneg.
Qed.

Lemma mask_from_slash_bound (slash : Z) : 0 <= mask_from_slash slash < 2 ^ 32.
Proof.
  split; [apply mask_from_slash_nonneg|].
  apply bits_bound; [apply mask_from_slash_nonneg|lia|].
  intros i Hi. rewrite mask_from_slash_testbit by lia. lia.
Qed.

Lemma mask_from_slash_closed (n : Z) :
  0 <= n <= 32 -> mask_from_slash n = 2 ^ 32 - 2 ^ (32 - n).
Proof.
  intros Hn.
  replace (2 ^ 32 - 2 ^ (32 - n)) with (Z.shiftl (Z.ones n) (32 - n)).
  - apply Z.bits_inj'. intros i Hi.
    rewrite mask_from_slash_testbit, Z.shiftl_spec by lia.
    destruct (Z.leb_spec (32 - n) i).
    + rewrite Z.testbit_ones_nonneg by lia. lia.
    + rewrite Z.testbit_neg_r by lia. reflexivity.
  - rewrite Z.shiftl_mul_pow2, Z.ones_equiv by lia.
    replace (2 ^ 32) with (2 ^ (n + (32 - n))) by (f_equal; lia).
    rewrite Z.pow_add_r by lia. lia.
Qed.

(** C6. For every prefix length [n] from 0 to 32, [mask_from_slash n] is a
    32-bit value whose bit at position [b] (counted from 1 at the most
    significant bit) is set exactly when [b <= n]: the top [n] bits are set
    and the other [32 - n] are clear.  Its value is [2^32 - 2^(32-n)]; it
    is 0 for [n = 0] and 0xFFFFFFFF for [n = 32]. *)
Theorem mask_from_slash_spec (n : Z) :
  0 <= n <= 32 ->
  0 <= mask_from_slash n < 2 ^ 32 /\
  (forall b, 1 <= b <= 32 -> is_bit_on (mask_from_slash n) b = (b <=? n)) /\
  mask_from_slash n = 2 ^ 32 - 2 ^ (32 - n) /\
  mask_from_slash 0 = 0 /\
  mask_from_slash 32 = 0xFFFFFFFF.
Proof.
  intros Hn. split; [apply mask_from_slash_bound|].
  split; [|split; [now apply mask_from_slash_closed|split; reflexivity]].
  intros b Hb.
  rewrite is_bit_on_testbit, mask_from_slash_testbit by lia. lia.
Qed.

Lemma mask_from_slash_spec_witness :
  0 <= 24 <= 32 /\
  mask_from_slash 24 = 2 ^ 32 - 2 ^ (32 - 24) /\
  is_bit_on (mask_from_slash 24) 24 = true /\
  is_bit_on (mask_from_slash 24) 25 = false.
Proof.
  assert (H : 0 <= 24 <= 32) by lia.
  destruct (mask_from_slash_spec 24 H) as [_ [Hbits [Hval _]]].
  split; [exact H|]. split; [exact Hval|].
  split; [apply (Hbits 24); lia|apply (Hbits 25); lia].
Defined.

(** ** Lists of ordered pairs *)

Lemma ForallOrdPairs_app {A : Type} (R : A -> A -> Prop) (l1 l2 : list A) :
  ForallOrdPairs R (l1 ++ l2) <->
  ForallOrdPairs R l1 /\ ForallOrdPairs R l2 /\
  (forall a b, In a l1 -> In b l2 -> R a b).
Proof.
  induction l1 as [|x l1 IH]; simpl.
  - split.
    + intros H. repeat split; [constructor|assumption|contradiction].
    + now intros [_ [H _]].
  - split.
    + intros H. inversion H as [|? ? Hx Hl]; subst.
      apply IH in Hl. destruct Hl as [H1 [H2 H12]].
      apply Forall_app in Hx. destruct Hx as [Hx1 Hx2].
      repeat split; [now constructor|assumption|].
      intros a b [<-|Ha] Hb.
      * rewrite Forall_forall in Hx2. now apply Hx2.
      * now apply H12.
    + intros [H1 [H2 H12]]. inversion H1 as [|? ? Hx Hl]; subst.
      constructor.
      * apply Forall_app. split; [assumption|].
        apply Forall_forall. intros b Hb. apply H12; [now left|assumption].
      * apply IH. repeat split; try assumption.
        intros a b Ha Hb. apply H12; [now right|assumption].
Qed.

Lemma ForallOrdPairs_impl {A : Type} (R Q : A -> A -> Prop) (l : list A) :
  (forall a b, In a l -> In b l -> R a b -> Q a b) ->
  ForallOrdPairs R l -> ForallOrdPairs Q l.
Proof.
  induction l as [|x l IH]; intros HRQ H; [constructor|].
  inversion H as [|? ? Hx Hl]; subst. constructor.
  - rewrite Forall_forall in *. intros b Hb.
    apply HRQ; [now left|now right|now apply Hx].
  - apply IH; [|assumption]. intros a b Ha Hb. apply HRQ; now right.
Qed.

(** ** contiguous_bits *)

Lemma scan_succ (mask : Z) (k : nat) :
  scan mask (S k) = scan_step mask (scan mask k) (Z.of_nat k + 1).
Proof.
  unfold scan. replace (Z.of_nat (S k) + 1) with ((Z.of_nat k + 1) + 1) by lia.
  rewrite py_range_snoc by lia. now rewrite fold_left_app.
Qed.

Lemma scan_inv_init (mask : Z) : scan_inv mask 0 ([], None).
Proof.
  constructor; unfold held; simpl.
  - constructor.
  - constructor.
  - constructor.
  - discriminate.
  - constructor.
  - intros pos Hpos. lia.
Qed.

Lemma Exists_singleton {A : Type} (P : A -> Prop) (a : A) : Exists P [a] <-> P a.
Proof.
  split; intros H; [|now left].
  inversion H as [? ? Ha|? ? Ha]; [assumption|inversion Ha].
Qed.

Lemma Forall_singleton_iff {A : Type} (P : A -> Prop) (a : A) : Forall P [a] <-> P a.
Proof.
  split; intros H; [now inversion H|now repeat constructor].
Qed.

Lemma scan_inv_step (mask k : Z) (st : scan_state) :
  0 <= k -> scan_inv mask k st ->
  scan_inv mask (k + 1) (scan_step mask st (k + 1)).
Proof.
  intros Hk [Hshape Hleft Hclosed Hopen Hgap Hcover].
  destruct st as [ranges open]. unfold held in *. simpl fst in *. simpl snd in *.
  apply Forall_app in Hshape as [Hshape1 Hshape2].
  apply Forall_app in Hleft as [Hleft1 Hleft2].
  apply ForallOrdPairs_app in Hgap as [Hgap1 [_ Hgap2]].
  assert (Hshape1' : Forall (fun r => 1 <= fst r <= snd r /\ snd r <= k + 1) ranges).
  { revert Hshape1. apply Forall_impl. intros r. lia. }
  assert (Hclosed' : Forall (fun r => snd r < k + 1 /\
                                      is_bit_on mask (snd r + 1) = false) ranges).
  { revert Hclosed. apply Forall_impl. intros r. intuition lia. }
  assert (Hnone : ~ Exists (fun r => covers r (k + 1)) ranges).
  { rewrite Exists_exists. intros [r [Hr Hc]].
    rewrite Forall_forall in Hclosed. apply Hclosed in Hr.
    unfold covers in Hc. lia. }
  destruct open as [[s e]|]; unfold scan_step; cbv beta iota;
    simpl open_list in *.
  - (* a range is open: it ends at [k] *)
    apply Forall_inv in Hshape2, Hleft2. simpl in Hshape2, Hleft2.
    assert (He : e = k) by (apply (Hopen (s, e)); reflexivity). subst e.
    assert (Ts : (s =? 0) = false) by cmp_cases.
    assert (Te : (k =? 0) = false) by cmp_cases.
    cbn [option_map truthy fst snd]. rewrite Ts, Te. cbn [negb].
    destruct (is_bit_on mask (k + 1)) eqn:Hon; constructor;
      unfold held; simpl fst; simpl snd; simpl open_list.
    + apply Forall_app. split; [assumption|].
      apply Forall_singleton_iff. simpl. lia.
    + apply Forall_app. split; [assumption|].
      now apply Forall_singleton_iff.
    + assumption.
    + intros r Hr. now inversion Hr.
    + apply ForallOrdPairs_app. repeat split; [assumption|repeat constructor|].
      intros a b Ha [<-|[]]. apply (Hgap2 a (s, k)); [assumption|now left].
    + intros pos Hpos. rewrite Exists_app, Exists_singleton.
      destruct (Z.eq_dec pos (k + 1)) as [->|Hne].
      * split; [|intros _; assumption].
        intros _. right. unfold covers. simpl. lia.
      * rewrite Hcover, Exists_app, Exists_singleton by lia.
        unfold covers. simpl. intuition lia.
    + rewrite app_nil_r. apply Forall_app. split; [assumption|].
      apply Forall_singleton_iff. simpl. lia.
    + rewrite app_nil_r. apply Forall_app. split; [assumption|].
      now apply Forall_singleton_iff.
    + apply Forall_app. split; [assumption|].
      apply Forall_singleton_iff. simpl. split; [lia|assumption].
    + discriminate.
    + rewrite app_nil_r. apply ForallOrdPairs_app.
      repeat split; [assumption|repeat constructor|assumption].
    + intros pos Hpos. rewrite app_nil_r, Exists_app, Exists_singleton.
      destruct (Z.eq_dec pos (k + 1)) as [->|Hne].
      * rewrite Hon. split; [discriminate|].
        intros [H|H]; [contradiction|]. unfold covers in H. simpl in H. lia.
      * rewrite Hcover, Exists_app, Exists_singleton by lia. reflexivity.
  - (* no range is open *)
    simpl option_map. simpl truthy. rewrite app_nil_r in *.
    assert (Hprev : k = 0 \/ is_bit_on mask k = false).
    { destruct (Z.eq_dec k 0) as [|Hk0]; [now left|right].
      destruct (is_bit_on mask k) eqn:Hb; [|reflexivity].
      apply Hcover in Hb; [|lia]. rewrite ?app_nil_r in Hb.
      rewrite Exists_exists in Hb. destruct Hb as [r [Hr Hc]].
      rewrite Forall_forall in Hclosed. apply Hclosed in Hr.
      unfold covers in Hc. lia. }
    destruct (is_bit_on mask (k + 1)) eqn:Hon; constructor;
      unfold held; simpl fst; simpl snd; simpl open_list;
      rewrite ?app_nil_r.
    + apply Forall_app. split; [assumption|].
      apply Forall_singleton_iff. simpl. lia.
    + apply Forall_app. split; [assumption|].
      apply Forall_singleton_iff. simpl.
      replace (k + 1 - 1) with k by lia. destruct Hprev; [left; lia|now right].
    + assumption.
    + intros r Hr. now inversion Hr.
    + apply ForallOrdPairs_app. repeat split; [assumption|repeat constructor|].
      intros a b Ha [<-|[]]. unfold gap. simpl.
      rewrite Forall_forall in Hclosed. apply Hclosed in Ha. lia.
    + intros pos Hpos. rewrite Exists_app, Exists_singleton.
      destruct (Z.eq_dec pos (k + 1)) as [->|Hne].
      * split; [|intros _; assumption].
        intros _. right. unfold covers. simpl. lia.
      * rewrite Hcover by lia. rewrite ?app_nil_r.
        split; [now left|]. intros [H|H]; [assumption|].
        unfold covers in H. simpl in H. lia.
    + assumption.
    + assumption.
    + assumption.
    + discriminate.
    + assumption.
    + intros pos Hpos.
      destruct (Z.eq_dec pos (k + 1)) as [->|Hne].
      * rewrite Hon. split; [discriminate|]. intros H. contradiction.
      * rewrite Hcover by lia. now rewrite ?app_nil_r.
Qed.

Lemma scan_inv_all (mask : Z) (k : nat) : scan_inv mask (Z.of_nat k) (scan mask k).
Proof.
  induction k as [|k IH].
  - apply scan_inv_init.
  - rewrite scan_succ. replace (Z.of_nat (S k)) with (Z.of_nat k + 1) by lia.
    apply scan_inv_step; [lia|assumption].
Qed.

Lemma contiguous_bits_held (mask : Z) : contiguous_bits mask = held (scan mask 32).
Proof.
  unfold contiguous_bits. change (py_range 1 33) with (py_range 1 (Z.of_nat 32 + 1)).
  fold (scan mask 32).
  pose proof (scan_inv_all mask 32) as [_ _ _ Hopen _ _].
  destruct (scan mask 32) as [ranges [[s e]|]]; unfold scan_finish, held; simpl.
  - assert (He : e = 32) by (apply (Hopen (s, e)); reflexivity).
    subst e. reflexivity.
  - now rewrite app_nil_r.
Qed.

Lemma contiguous_bits_inv (mask : Z) :
  scan_inv mask 32 (scan mask 32).
Proof. exact (scan_inv_all mask 32). Qed.

(** Every range found lies within positions 1 to 32. *)
Lemma contiguous_bits_valid (mask : Z) :
  Forall (fun r => 1 <= fst r <= snd r /\ snd r <= 32) (contiguous_bits mask).
Proof.
  rewrite contiguous_bits_held. apply (inv_shape _ _ _ (contiguous_bits_inv mask)).
Qed.

Lemma contiguous_bits_gap (mask : Z) : ForallOrdPairs gap (contiguous_bits mask).
Proof.
  rewrite contiguous_bits_held. apply (inv_gap _ _ _ (contiguous_bits_inv mask)).
Qed.

Lemma contiguous_bits_cover (mask pos : Z) :
  1 <= pos <= 32 ->
  (is_bit_on mask pos = true <-> exists r, In r (contiguous_bits mask) /\ covers r pos).
Proof.
  intros Hpos. rewrite contiguous_bits_held, <- Exists_exists.
  apply (inv_cover _ _ _ (contiguous_bits_inv mask)). exact Hpos.
Qed.

Lemma contiguous_bits_maximal (mask : Z) :
  Forall (fun r => (fst r = 1 \/ is_bit_on mask (fst r - 1) = false) /\
                   (snd r = 32 \/ is_bit_on mask (snd r + 1) = false))
         (contiguous_bits mask).
Proof.
  rewrite contiguous_bits_held.
  destruct (contiguous_bits_inv mask) as [_ Hleft Hclosed Hopen _ _].
  apply Forall_forall. intros r Hr. split.
  - rewrite Forall_forall in Hleft. apply Hleft. exact Hr.
  - unfold held in Hr. apply in_app_or in Hr. destruct Hr as [Hr|Hr].
    + rewrite Forall_forall in Hclosed. right. apply Hclosed. exact Hr.
    + left. destruct (snd (scan mask 32)) as [r'|] eqn:E; simpl in Hr;
        [|contradiction].
      destruct Hr as [<-|[]]. apply Hopen. reflexivity.
Qed.

Lemma or_positions_testbit (positions : list Z) (mask i : Z) :
  0 <= i -> Forall (fun pos => pos <= 32) positions ->
  Z.testbit (or_positions positions mask) i =
  Z.testbit mask i || existsb (fun pos => 32 - pos =? i) positions.
Proof.
  intros Hi. revert mask. unfold or_positions.
  induction positions as [|pos l IH]; intros mask Hl; cbn [fold_left existsb].
  - now rewrite orb_false_r.
  - inversion Hl; subst. rewrite IH by assumption.
    rewrite Z.lor_spec, Z.shiftl_1_l, Z.pow2_bits_eqb by lia.
    now rewrite orb_assoc.
Qed.

Lemma or_ranges_contiguous_bits (mask : Z) :
  0 <= mask < 2 ^ 32 -> or_ranges (contiguous_bits mask) = mask.
Proof.
  intros Hm. apply Z.bits_inj'. intros i Hi. unfold or_ranges.
  pose proof (contiguous_bits_valid mask) as Hv. rewrite Forall_forall in Hv.
  rewrite or_positions_testbit, Z.bits_0, orb_false_l.
  2: assumption.
  2: { apply Forall_forall. intros pos Hp. apply in_flat_map in Hp.
       destruct Hp as [r [Hr Hp]]. apply py_range_In in Hp.
       apply Hv in Hr. lia. }
  apply eq_true_iff_eq. rewrite existsb_exists. split.
  - intros [pos [Hp Hpi]]. apply in_flat_map in Hp.
    destruct Hp as [r [Hr Hp]]. apply py_range_In in Hp.
    apply Z.eqb_eq in Hpi. pose proof (Hv r Hr).
    replace i with (32 - pos) by lia.
    rewrite <- is_bit_on_testbit by lia.
    apply contiguous_bits_cover; [lia|]. exists r. split; [assumption|].
    unfold covers. lia.
  - intros Hb. destruct (Z.lt_ge_cases i 32) as [Hlt|Hge].
    + replace i with (32 - (32 - i)) in Hb by lia.
      rewrite <- is_bit_on_testbit in Hb by lia.
      apply contiguous_bits_cover in Hb; [|lia].
      destruct Hb as [r [Hr Hc]]. exists (32 - i). split.
      * apply in_flat_map. exists r. split; [assumption|].
        apply py_range_In. unfold covers in Hc. lia.
      * apply Z.eqb_eq. lia.
    + rewrite (bits_above mask 32 i) in Hb by lia. discriminate.
Qed.

(** C2. For every 32-bit mask, the ranges found by [contiguous_bits] lie
    within positions 1 to 32, are listed by ascending start with at least
    one clear bit between two of them (so they are disjoint), cover exactly
    the positions of the set bits, cannot be extended on either side (they
    are maximal), and OR-ing one bit per covered position gives the mask
    back.  The zero mask has no range. *)
Theorem contiguous_bits_spec (mask : Z) :
  0 <= mask < 2 ^ 32 ->
  Forall (fun r => 1 <= fst r <= snd r /\ snd r <= 32) (contiguous_bits mask) /\
  ForallOrdPairs (fun r1 r2 => fst r1 < fst r2 /\ snd r1 + 1 < fst r2)
                 (contiguous_bits mask) /\
  (forall pos, 1 <= pos <= 32 ->
     (is_bit_on mask pos = true <->
      exists r, In r (contiguous_bits mask) /\ fst r <= pos <= snd r)) /\
  Forall (fun r => (fst r = 1 \/ is_bit_on mask (fst r - 1) = false) /\
                   (snd r = 32 \/ is_bit_on mask (snd r + 1) = false))
         (contiguous_bits mask) /\
  or_ranges (contiguous_bits mask) = mask /\
  contiguous_bits 0 = [].
Proof.
  intros Hm. split; [apply contiguous_bits_valid|].
  split.
  { pose proof (contiguous_bits_valid mask) as Hv. rewrite Forall_forall in Hv.
    eapply ForallOrdPairs_impl; [|apply contiguous_bits_gap].
    intros a b Ha Hb Hg. unfold gap in Hg. apply Hv in Ha. lia. }
  split; [intros pos Hpos; now apply contiguous_bits_cover|].
  split; [apply contiguous_bits_maximal|].
  split; [now apply or_ranges_contiguous_bits|reflexivity].
Qed.

Lemma contiguous_bits_spec_witness :
  0 <= 0x00FF0081 < 2 ^ 32 /\
  contiguous_bits 0x00FF0081 = [(9, 16); (25, 25); (32, 32)] /\
  or_ranges (contiguous_bits 0x00FF0081) = 0x00FF0081.
Proof.
  assert (H : 0 <= 0x00FF0081 < 2 ^ 32) by lia.
  destruct (contiguous_bits_spec 0x00FF0081 H) as [_ [_ [_ [_ [Hor _]]]]].
  split; [exact H|]. split; [reflexivity|exact Hor].
Defined.

(** ** unroller *)

Lemma mapM_ok {A B : Type} (f : A -> result B) (g : A -> B) (l : list A) :
  (forall a, In a l -> f a = Ok (g a)) -> mapM f l = Ok (map g l).
Proof.
  induction l as [|a l IH]; intros H; [reflexivity|].
  simpl. rewrite (H a) by now left. simpl.
  rewrite IH by (intros b Hb; apply H; now right). reflexivity.
Qed.

Lemma candidate_ok (start end_ prefix field : Z) :
  0 <= end_ <= 32 ->
  candidate start end_ prefix field = Ok (substitute start end_ prefix field).
Proof.
  intros He. unfold candidate, py_rshift, py_lshift.
  destruct (Z.ltb_spec end_ 0); [lia|]. cbn [bind].
  destruct (Z.ltb_spec (32 - end_) 0); [lia|]. reflexivity.
Qed.

Lemma expand_prefix_ok (start end_ prefix : Z) :
  start <= end_ + 1 -> 0 <= end_ <= 32 ->
  expand_prefix start end_ prefix =
  Ok (map (substitute start end_ prefix) (py_range 0 (2 ^ (end_ - start + 1)))).
Proof.
  intros Hs He. unfold expand_prefix, py_range_pow2.
  destruct (Z.ltb_spec (end_ - start + 1) 0); [lia|]. cbn [bind].
  apply mapM_ok. intros field _. now apply candidate_ok.
Qed.

Lemma expand_range_ok (r : BitRange) (prefixes : list Z) :
  valid_range r -> expand_range r prefixes = Ok (expand_step r prefixes).
Proof.
  intros [Hs He]. destruct r as [start end_]. simpl in Hs, He.
  unfold expand_range, expand_step.
  rewrite (mapM_ok _ (fun prefix => map (substitute start end_ prefix)
                                        (py_range 0 (2 ^ (end_ - start + 1))))).
  - cbn [bind]. now rewrite flat_map_concat_map.
  - intros prefix _. apply expand_prefix_ok; lia.
Qed.

Lemma unroller_cons (r : BitRange) (ranges : list BitRange) (prefixes : list Z) :
  valid_range r ->
  unroller (r :: ranges) prefixes = unroller ranges (expand_step r prefixes).
Proof.
  intros Hr. cbn [unroller]. now rewrite expand_range_ok.
Qed.

Lemma unroller_ok (ranges : list BitRange) (prefixes : list Z) :
  Forall valid_range ranges ->
  unroller ranges prefixes = Ok (expansion ranges prefixes).
Proof.
  revert prefixes. induction ranges as [|r ranges IH]; intros prefixes Hv.
  - reflexivity.
  - inversion Hv; subst. rewrite unroller_cons by assumption.
    now rewrite IH.
Qed.

Lemma width_pos (r : BitRange) : valid_range r -> 1 <= width r <= 32.
Proof. unfold valid_range, width. lia. Qed.

Lemma total_width_nonneg (ranges : list BitRange) :
  Forall valid_range ranges -> 0 <= total_width ranges.
Proof.
  induction 1 as [|r l Hr _ IH]; simpl; [lia|].
  pose proof (width_pos r Hr). lia.
Qed.

Lemma expand_step_length (r : BitRange) (prefixes : list Z) :
  valid_range r ->
  Z.of_nat (List.length (expand_step r prefixes)) =
  Z.of_nat (List.length prefixes) * 2 ^ width r.
Proof.
  intros Hr. pose proof (width_pos r Hr) as Hw.
  assert (0 < 2 ^ width r) by (apply Z.pow_pos_nonneg; lia).
  unfold expand_step. induction prefixes as [|p ps IH]; [reflexivity|].
  cbn [flat_map]. rewrite length_app, length_map, py_range_length.
  cbn [List.length]. lia.
Qed.

Lemma expansion_length (ranges : list BitRange) (prefixes : list Z) :
  Forall valid_range ranges ->
  Z.of_nat (List.length (expansion ranges prefixes)) =
  Z.of_nat (List.length prefixes) * 2 ^ total_width ranges.
Proof.
  revert prefixes. induction ranges as [|r ranges IH]; intros prefixes Hv.
  - simpl. lia.
  - inversion Hv as [|? ? Hr Hv']; subst. cbn [expansion fold_left].
    fold (expansion ranges (expand_step r prefixes)).
    rewrite IH, expand_step_length by assumption.
    cbn [total_width fold_right]. fold (total_width ranges).
    pose proof (width_pos r Hr). pose proof (total_width_nonneg ranges Hv').
    rewrite Z.pow_add_r by lia. lia.
Qed.

Lemma substitute_testbit (start end_ prefix field pos : Z) :
  valid_range (start, end_) ->
  0 <= field < 2 ^ (end_ - start + 1) ->
  1 <= pos <= 32 ->
  Z.testbit (substitute start end_ prefix field) (32 - pos) =
  if (start <=? pos) && (pos <=? end_) then Z.testbit field (end_ - pos)
  else Z.testbit prefix (32 - pos).
Proof.
  intros [Hs He] Hf Hpos. simpl in Hs, He.
  unfold substitute, preservation_mask.
  rewrite Z.lor_spec, Z.land_spec, Z.lor_spec, Z.shiftr_spec, Z.shiftl_spec by lia.
  rewrite !mask_from_slash_testbit by lia.
  replace (32 - pos - (32 - end_)) with (end_ - pos) by lia.
  destruct (Z.leb_spec start pos) as [H1|H1];
    [destruct (Z.leb_spec pos end_) as [H2|H2]|]; cbn [andb].
  - replace (32 - (start - 1) <=? 32 - pos) with false by (symmetry; cmp_cases).
    replace (32 - pos + end_ <? 32) with false by (symmetry; cmp_cases).
    cbn [andb orb]. now rewrite andb_false_r, andb_false_r.
  - rewrite (Z.testbit_neg_r field) by lia. rewrite orb_false_r.
    replace (32 - 32 <=? 32 - pos + end_) with true by (symmetry; cmp_cases).
    replace (32 - pos + end_ <? 32) with true by (symmetry; cmp_cases).
    cbn [andb]. now rewrite orb_true_r, andb_true_r.
  - rewrite (bits_above field (end_ - start + 1)) by lia. rewrite orb_false_r.
    replace (32 - (start - 1) <=? 32 - pos) with true by (symmetry; cmp_cases).
    replace (32 - pos <? 32) with true by (symmetry; cmp_cases).
    replace (0 <? start - 1) with true by (symmetry; cmp_cases).
    cbn [andb orb]. now rewrite andb_true_r.
Qed.

Lemma substitute_bound (start end_ prefix field : Z) :
  valid_range (start, end_) ->
  0 <= field < 2 ^ (end_ - start + 1) ->
  0 <= substitute start end_ prefix field < 2 ^ 32.
Proof.
  intros [Hs He] Hf. simpl in Hs, He.
  assert (Hm : 0 <= preservation_mask start end_).
  { unfold preservation_mask. apply Z.lor_nonneg. split.
    - apply mask_from_slash_nonneg.
    - apply Z.shiftr_nonneg, mask_from_slash_nonneg. }
  assert (Hn : 0 <= substitute start end_ prefix field).
  { unfold substitute. apply Z.lor_nonneg. split.
    - apply Z.land_nonneg. now right.
    - apply Z.shiftl_nonneg. lia. }
  split; [assumption|]. apply bits_bound; [assumption|lia|].
  intros i Hi. unfold substitute, preservation_mask.
  rewrite Z.lor_spec, Z.land_spec, Z.lor_spec, Z.shiftr_spec, Z.shiftl_spec by lia.
  rewrite !mask_from_slash_testbit by lia.
  rewrite (bits_above field (end_ - start + 1)) by lia.
  replace (i <? 32) with false by (symmetry; cmp_cases).
  replace (i + end_ <? 32) with false by (symmetry; cmp_cases).
  now rewrite !andb_false_r.
Qed.

Lemma in_expand_step (r : BitRange) (prefixes : list Z) (c : Z) :
  In c (expand_step r prefixes) <->
  exists prefix field,
    In prefix prefixes /\ 0 <= field < 2 ^ width r /\
    c = substitute (fst r) (snd r) prefix field.
Proof.
  unfold expand_step. rewrite in_flat_map. split.
  - intros [p [Hp Hc]]. apply in_map_iff in Hc. destruct Hc as [f [<- Hf]].
    apply py_range_In in Hf. now exists p, f.
  - intros [p [f [Hp [Hf ->]]]]. exists p. split; [assumption|].
    apply in_map_iff. exists f. split; [reflexivity|]. now apply py_range_In.
Qed.

Lemma expand_step_agree (r : BitRange) (prefix field pos : Z) :
  valid_range r -> 0 <= field < 2 ^ width r -> 1 <= pos <= 32 ->
  ~ covers r pos ->
  Z.testbit (substitute (fst r) (snd r) prefix field) (32 - pos) =
  Z.testbit prefix (32 - pos).
Proof.
  intros Hr Hf Hpos Hc. destruct r as [s e]. unfold width, covers in *.
  cbn [fst snd] in *. rewrite substitute_testbit by assumption.
  destruct (Z.leb_spec s pos); [destruct (Z.leb_spec pos e)|];
    cbn [andb]; try reflexivity. lia.
Qed.

Lemma expansion_agree (ranges : list BitRange) :
  Forall valid_range ranges ->
  forall prefixes c, In c (expansion ranges prefixes) ->
    exists prefix, In prefix prefixes /\ agree_outside ranges c prefix.
Proof.
  induction 1 as [|r ranges Hr Hv IH]; intros prefixes c Hc.
  - exists c. split; [assumption|]. intros pos _ _. reflexivity.
  - cbn [expansion fold_left] in Hc.
    apply IH in Hc. destruct Hc as [q [Hq Hcq]].
    apply in_expand_step in Hq. destruct Hq as [p [f [Hp [Hf ->]]]].
    exists p. split; [assumption|]. intros pos Hpos Hnc.
    rewrite Hcq; [|assumption|intros r' Hr'; apply Hnc; now right].
    apply expand_step_agree; try assumption. apply Hnc. now left.
Qed.

Lemma expansion_bound (ranges : list BitRange) :
  Forall valid_range ranges ->
  forall prefixes,
    Forall (fun p => 0 <= p < 2 ^ 32) prefixes ->
    Forall (fun c => 0 <= c < 2 ^ 32) (expansion ranges prefixes).
Proof.
  induction 1 as [|r ranges Hr Hv IH]; intros prefixes Hp; [assumption|].
  cbn [expansion fold_left]. apply IH. apply Forall_forall. intros c Hc.
  apply in_expand_step in Hc. destruct Hc as [p [f [_ [Hf ->]]]].
  destruct r as [s e]. apply substitute_bound; assumption.
Qed.

(** *** Distinct candidates *)

Lemma ForallOrdPairs_NoDup {A : Type} (R : A -> A -> Prop) (l : list A) :
  (forall a, ~ R a a) -> ForallOrdPairs R l -> NoDup l.
Proof.
  intros Hirr. induction 1 as [|a l Ha _ IH]; constructor; [|assumption].
  intros Hin. rewrite Forall_forall in Ha. exact (Hirr a (Ha a Hin)).
Qed.

Lemma ForallOrdPairs_map_NoDup {A B : Type} (R : B -> B -> Prop) (g : A -> B)
      (l : list A) :
  NoDup l ->
  (forall x y, In x l -> In y l -> x <> y -> R (g x) (g y)) ->
  ForallOrdPairs R (map g l).
Proof.
  induction 1 as [|a l Ha Hnd IH]; intros HR; simpl; constructor.
  - apply Forall_forall. intros b Hb. apply in_map_iff in Hb.
    destruct Hb as [y [<- Hy]]. apply HR; [now left|now right|].
    intros ->. contradiction.
  - apply IH. intros x y Hx Hy. apply HR; now right.
Qed.

(** Two fields of one range give candidates that differ inside the range. *)
Lemma substitute_field_inj (r : BitRange) (others : list BitRange)
      (prefix f1 f2 : Z) :
  valid_range r ->
  (forall r', In r' others -> disjoint r r') ->
  0 <= f1 < 2 ^ width r -> 0 <= f2 < 2 ^ width r ->
  agree_outside others (substitute (fst r) (snd r) prefix f1)
                       (substitute (fst r) (snd r) prefix f2) ->
  f1 = f2.
Proof.
  intros Hr Hdis H1 H2 Hag. destruct r as [s e].
  pose proof Hr as [Hs He]. unfold width in *. cbn [fst snd] in *.
  apply Z.bits_inj'. intros j Hj.
  destruct (Z.lt_ge_cases j (e - s + 1)) as [Hlt|Hge].
  - assert (Hpos : 1 <= e - j <= 32) by lia.
    specialize (Hag (e - j) Hpos).
    rewrite !substitute_testbit in Hag by assumption.
    replace ((s <=? e - j) && (e - j <=? e)) with true in Hag
      by (symmetry; cmp_cases).
    replace (e - (e - j)) with j in Hag by lia.
    apply Hag. intros r' Hr' Hc. specialize (Hdis r' Hr').
    unfold disjoint, covers in *. cbn [fst snd] in *. lia.
  - rewrite (bits_above f1 (e - s + 1)), (bits_above f2 (e - s + 1)) by lia.
    reflexivity.
Qed.

Lemma expand_step_distinct (r : BitRange) (others : list BitRange)
      (prefixes : list Z) :
  valid_range r ->
  (forall r', In r' others -> disjoint r r') ->
  ForallOrdPairs (fun a b => ~ agree_outside (r :: others) a b) prefixes ->
  ForallOrdPairs (fun a b => ~ agree_outside others a b) (expand_step r prefixes).
Proof.
  intros Hr Hdis. induction 1 as [|p ps Hp _ IH]; [constructor|].
  change (expand_step r (p :: ps))
    with (map (substitute (fst r) (snd r) p) (py_range 0 (2 ^ width r))
          ++ expand_step r ps).
  apply ForallOrdPairs_app. repeat split; [|assumption|].
  - apply ForallOrdPairs_map_NoDup; [apply py_range_NoDup|].
    intros f1 f2 H1 H2 Hne Hag. apply py_range_In in H1, H2.
    apply Hne. eapply substitute_field_inj; eassumption.
  - intros a b Ha Hb Hag. apply in_map_iff in Ha.
    destruct Ha as [f1 [<- Hf1]]. apply py_range_In in Hf1.
    apply in_expand_step in Hb. destruct Hb as [q [f2 [Hq [Hf2 ->]]]].
    rewrite Forall_forall in Hp. apply (Hp q Hq).
    intros pos Hpos Hnc.
    assert (Hnr : ~ covers r pos) by (apply Hnc; now left).
    rewrite <- (expand_step_agree r p f1 pos) by assumption.
    rewrite <- (expand_step_agree r q f2 pos) by assumption.
    apply Hag; [assumption|]. intros r' Hr'. apply Hnc. now right.
Qed.

Lemma expansion_distinct (ranges : list BitRange) :
  Forall valid_range ranges ->
  ForallOrdPairs disjoint ranges ->
  forall prefixes,
    ForallOrdPairs (fun a b => ~ agree_outside ranges a b) prefixes ->
    NoDup (expansion ranges prefixes).
Proof.
  induction 1 as [|r ranges Hr Hv IH]; intros Hdis prefixes Hp.
  - simpl. eapply ForallOrdPairs_NoDup; [|exact Hp].
    intros a Ha. apply Ha. intros pos _ _. reflexivity.
  - inversion Hdis as [|? ? Hrd Hdis']; subst.
    cbn [expansion fold_left]. apply IH; [assumption|].
    apply expand_step_distinct; [assumption| |assumption].
    rewrite Forall_forall in Hrd. exact Hrd.
Qed.

(** C3. For every list of well-formed, pairwise disjoint ranges of total
    width [w], [unroller] started from a single seed returns a list of
    exactly [2^w] candidates without duplicates; from any list of seeds it
    returns [len(seeds) * 2^w] candidates, and the step for one range of
    width [w'] turns [n] seeds into [n * 2^w'] candidates, which seed the
    rest of the ranges. *)
Theorem unroller_cardinality (ranges : list BitRange) (seeds : list Z) (seed : Z) :
  Forall valid_range ranges ->
  ForallOrdPairs disjoint ranges ->
  (exists out, unroller ranges [seed] = Ok out /\
               Z.of_nat (List.length out) = 2 ^ total_width ranges /\
               NoDup out) /\
  (exists out, unroller ranges seeds = Ok out /\
               Z.of_nat (List.length out) =
               Z.of_nat (List.length seeds) * 2 ^ total_width ranges) /\
  (forall r rest, ranges = r :: rest ->
     exists step, expand_range r seeds = Ok step /\
                  Z.of_nat (List.length step) =
                  Z.of_nat (List.length seeds) * 2 ^ width r /\
                  unroller ranges seeds = unroller rest step).
Proof.
  intros Hv Hdis. split; [|split].
  - exists (expansion ranges [seed]). split; [now apply unroller_ok|].
    split.
    + rewrite expansion_length by assumption. simpl List.length. lia.
    + apply expansion_distinct; try assumption. repeat constructor.
  - exists (expansion ranges seeds). split; [now apply unroller_ok|].
    now apply expansion_length.
  - intros r rest ->. inversion Hv; subst.
    exists (expand_step r seeds). split; [now apply expand_range_ok|].
    split; [now apply expand_step_length|now apply unroller_cons].
Qed.

Lemma unroller_cardinality_witness :
  exists out, unroller [(1, 4); (31, 31)] [0x0A0C0E10] = Ok out /\
              Z.of_nat (List.length out) = 2 ^ total_width [(1, 4); (31, 31)] /\
              NoDup out.
Proof.
  apply (unroller_cardinality [(1, 4); (31, 31)] [] 0x0A0C0E10).
  - repeat constructor; simpl; lia.
  - repeat constructor; unfold disjoint; simpl; lia.
Defined.

(** *** The head range *)

Lemma shifted_ones_complement (end_ : Z) :
  0 <= end_ <= 32 ->
  Z.shiftr (mask_from_slash 32) end_ = complement32 (mask_from_slash end_).
Proof.
  intros He. unfold complement32. change 0xFFFFFFFF with (Z.ones 32).
  apply Z.bits_inj'. intros i Hi.
  rewrite Z.shiftr_spec, Z.land_spec, Z.lnot_spec by lia.
  rewrite !mask_from_slash_testbit, Z.testbit_ones_nonneg by lia.
  cmp_cases.
Qed.

Lemma spec_candidate_substitute (start end_ seed field : Z) :
  0 <= end_ <= 32 ->
  substitute start end_ seed field = spec_candidate start end_ seed field.
Proof.
  intros He. unfold substitute, spec_candidate, preservation_mask,
    spec_preservation_mask. now rewrite shifted_ones_complement.
Qed.

Lemma spec_preservation_mask_bits (start end_ pos : Z) :
  1 <= start <= end_ -> end_ <= 32 -> 1 <= pos <= 32 ->
  is_bit_on (spec_preservation_mask start end_) pos = (pos <? start) || (end_ <? pos).
Proof.
  intros Hs He Hpos. rewrite is_bit_on_testbit by lia.
  unfold spec_preservation_mask. rewrite <- shifted_ones_complement by lia.
  rewrite Z.lor_spec, Z.shiftr_spec, !mask_from_slash_testbit by lia.
  cmp_cases.
Qed.

(** C4. For a head range [(start, end)] with [1 <= start <= end <= 32],
    the values [unroller] appends are, seed by seed in the order of the
    seeds and for each seed with [field] ascending from 0 to [2^w - 1],
    [(seed & preservation_mask) | (field << (32 - end))]; the preservation
    mask [mask_from_slash (start-1) | complement (mask_from_slash end)]
    keeps exactly the positions before [start] and after [end]; these
    values seed the remaining ranges. *)
Theorem unroller_head_range (start end_ : Z) (rest : list BitRange) (seeds : list Z) :
  1 <= start <= end_ -> end_ <= 32 ->
  expand_range (start, end_) seeds =
    Ok (flat_map (fun seed => map (spec_candidate start end_ seed)
                                  (py_range 0 (2 ^ (end_ - start + 1)))) seeds) /\
  unroller ((start, end_) :: rest) seeds =
    unroller rest
      (flat_map (fun seed => map (spec_candidate start end_ seed)
                                 (py_range 0 (2 ^ (end_ - start + 1)))) seeds) /\
  (forall pos, 1 <= pos <= 32 ->
     is_bit_on (spec_preservation_mask start end_) pos =
     (pos <? start) || (end_ <? pos)).
Proof.
  intros Hs He.
  assert (Hv : valid_range (start, end_)) by (split; assumption).
  assert (E : expand_step (start, end_) seeds =
              flat_map (fun seed => map (spec_candidate start end_ seed)
                                        (py_range 0 (2 ^ (end_ - start + 1)))) seeds).
  { unfold expand_step, width. cbn [fst snd].
    apply flat_map_ext. intros seed. apply map_ext. intros field.
    apply spec_candidate_substitute. lia. }
  split; [|split].
  - rewrite expand_range_ok by assumption. now rewrite E.
  - rewrite unroller_cons by assumption. now rewrite E.
  - intros pos Hpos. now apply spec_preservation_mask_bits.
Qed.

Lemma unroller_head_range_witness :
  expand_range (16, 16) [0x0A0C0E10] = Ok [0x0A0C0E10; 0x0A0D0E10].
Proof.
  assert (H1 : 1 <= 16 <= 16) by lia.
  assert (H2 : 16 <= 32) by lia.
  destruct (unroller_head_range 16 16 [] [0x0A0C0E10] H1 H2) as [H _].
  exact H.
Defined.

(** *** Fixed bits *)

Lemma expand_step_app (r : BitRange) (ps qs : list Z) :
  expand_step r (ps ++ qs) = expand_step r ps ++ expand_step r qs.
Proof. unfold expand_step. apply flat_map_app. Qed.

Lemma expansion_app (ranges : list BitRange) (ps qs : list Z) :
  expansion ranges (ps ++ qs) = expansion ranges ps ++ expansion ranges qs.
Proof.
  revert ps qs. induction ranges as [|r ranges IH]; intros ps qs; [reflexivity|].
  cbn [expansion fold_left]. rewrite expand_step_app. apply IH.
Qed.

Lemma expansion_groups (ranges : list BitRange) (seeds : list Z) :
  expansion ranges seeds = concat (map (fun seed => expansion ranges [seed]) seeds).
Proof.
  induction seeds as [|seed seeds IH].
  - simpl. induction ranges as [|r ranges IHr]; [reflexivity|exact IHr].
  - change (seed :: seeds) with ([seed] ++ seeds).
    rewrite expansion_app, IH. reflexivity.
Qed.

(** C9. For well-formed ranges, the output of [unroller] is the
    concatenation of one group per seed, the group of a seed being what
    [unroller] returns from that seed alone; every candidate of a group has
    the same bit as its seed at every position from 1 to 32 that no
    processed range covers. *)
Theorem unroller_preserves_fixed_bits (ranges : list BitRange) (seeds : list Z) :
  Forall valid_range ranges ->
  exists groups,
    unroller ranges seeds = Ok (concat groups) /\
    Forall2 (fun seed group =>
               unroller ranges [seed] = Ok group /\
               forall c, In c group ->
                 forall pos, 1 <= pos <= 32 ->
                   (forall r, In r ranges -> ~ (fst r <= pos <= snd r)) ->
                   is_bit_on c pos = is_bit_on seed pos)
            seeds groups.
Proof.
  intros Hv. exists (map (fun seed => expansion ranges [seed]) seeds). split.
  - rewrite unroller_ok by assumption. now rewrite <- expansion_groups.
  - induction seeds as [|seed seeds IH]; simpl; constructor; [|exact IH].
    split; [now apply unroller_ok|].
    intros c Hc pos Hpos Hnc.
    destruct (expansion_agree ranges Hv [seed] c Hc) as [p [[<-|[]] Hag]].
    rewrite !is_bit_on_testbit by lia. now apply Hag.
Qed.

Lemma unroller_preserves_fixed_bits_witness :
  exists groups,
    unroller [(1, 4); (31, 31)] [0x0A0C0E10; 0] = Ok (concat groups) /\
    Forall2 (fun seed group =>
               unroller [(1, 4); (31, 31)] [seed] = Ok group /\
               forall c, In c group ->
                 forall pos, 1 <= pos <= 32 ->
                   (forall r, In r [(1, 4); (31, 31)] -> ~ (fst r <= pos <= snd r)) ->
                   is_bit_on c pos = is_bit_on seed pos)
            [0x0A0C0E10; 0] groups.
Proof.
  apply (unroller_preserves_fixed_bits [(1, 4); (31, 31)] [0x0A0C0E10; 0]).
  repeat constructor; simpl; lia.
Defined.

(** ** ip2long *)

Lemma digit_value_bound (c : ascii) (d : Z) : digit_value c = Some d -> 0 <= d.
Proof.
  unfold digit_value.
  destruct (Z.leb_spec 48 (Z.of_nat (nat_of_ascii c))); cbn [andb];
    [|discriminate].
  destruct (Z.of_nat (nat_of_ascii c) <=? 57); [|discriminate].
  intros [= <-]. lia.
Qed.

Lemma decimal_value_nonneg (field : list ascii) (acc v : Z) :
  0 <= acc -> decimal_value acc field = Some v -> 0 <= v.
Proof.
  revert acc. induction field as [|c field IH]; intros acc Hacc;
    cbn [decimal_value].
  - now intros [= <-].
  - destruct (digit_value c) as [d|] eqn:Hd; [|discriminate].
    apply digit_value_bound in Hd. apply IH. lia.
Qed.

Lemma parse_octet_bound (field : list ascii) (v : Z) :
  parse_octet field = Some v -> 0 <= v <= 255.
Proof.
  unfold parse_octet. destruct field as [|c rest]; [discriminate|].
  destruct (_ && _); [discriminate|].
  destruct (Nat.ltb _ _); [discriminate|].
  destruct (decimal_value 0 (c :: rest)) as [w|] eqn:Hw; [|discriminate].
  destruct (Z.leb_spec w 255); [|discriminate].
  intros [= <-]. apply decimal_value_nonneg in Hw; lia.
Qed.

Lemma inet_aton_bytes (ip : string) (packed : list Z) :
  inet_aton ip = Ok packed ->
  exists a b c d, packed = [a; b; c; d] /\
    0 <= a <= 255 /\ 0 <= b <= 255 /\ 0 <= c <= 255 /\ 0 <= d <= 255.
Proof.
  unfold inet_aton.
  destruct (split_dots [] ip) as [|fa [|fb [|fc [|fd [|fe l]]]]]; simpl;
    try discriminate;
    repeat match goal with
      | |- context [parse_octet ?f] =>
          let H := fresh "H" in destruct (parse_octet f) eqn:H
      end; try discriminate.
  intros [= <-]. do 4 eexists. split; [reflexivity|].
  repeat match goal with
    | H : parse_octet _ = Some _ |- _ => apply parse_octet_bound in H
    end.
  repeat split; lia.
Qed.

Lemma pack_byte_bound (acc byte k : Z) :
  0 <= k -> 0 <= acc < 2 ^ k -> 0 <= byte <= 255 ->
  0 <= Z.lor (Z.shiftl acc 8) byte < 2 ^ (k + 8).
Proof.
  intros Hk Hacc Hb.
  assert (Hn : 0 <= Z.lor (Z.shiftl acc 8) byte).
  { apply Z.lor_nonneg. split; [apply Z.shiftl_nonneg|]; lia. }
  split; [assumption|]. apply bits_bound; [assumption|lia|].
  intros i Hi. rewrite Z.lor_spec, Z.shiftl_spec by lia.
  rewrite (bits_above acc k), (bits_above byte 8) by lia. reflexivity.
Qed.

Lemma ip2long_bound (ip : string) (n : Z) :
  ip2long ip = Ok n -> 0 <= n < 2 ^ 32.
Proof.
  unfold ip2long. destruct (inet_aton ip) as [packed|] eqn:E; [|discriminate].
  cbn [bind]. intros [= <-]. apply inet_aton_bytes in E.
  destruct E as [a [b [c [d [-> [Ha [Hb [Hc Hd]]]]]]]].
  unfold unpack_be32. cbn [fold_left].
  assert (H0 : 0 <= 0 < 2 ^ 0) by lia.
  pose proof (pack_byte_bound 0 a 0 ltac:(lia) H0 Ha) as H1.
  pose proof (pack_byte_bound _ b 8 ltac:(lia) H1 Hb) as H2.
  pose proof (pack_byte_bound _ c 16 ltac:(lia) H2 Hc) as H3.
  exact (pack_byte_bound _ d 24 ltac:(lia) H3 Hd).
Qed.

(** ** Network construction *)

Lemma ip_int_from_prefix_mask (prefix : Z) :
  0 <= prefix <= 32 -> ip_int_from_prefix prefix = mask_from_slash prefix.
Proof.
  intros Hp. unfold ip_int_from_prefix, ALL_ONES.
  change 0xFFFFFFFF with (Z.ones 32).
  apply Z.bits_inj'. intros i Hi.
  rewrite Z.lxor_spec, Z.shiftr_spec, mask_from_slash_testbit by lia.
  rewrite !Z.testbit_ones_nonneg by lia.
  cmp_cases.
Qed.

Lemma masked_bound (c slash : Z) : 0 <= Z.land c (mask_from_slash slash) < 2 ^ 32.
Proof.
  assert (Hn : 0 <= Z.land c (mask_from_slash slash)).
  { apply Z.land_nonneg. right. apply mask_from_slash_nonneg. }
  split; [assumption|]. apply bits_bound; [assumption|lia|].
  intros i Hi. rewrite Z.land_spec, mask_from_slash_testbit by lia.
  replace (i <? 32) with false by (symmetry; cmp_cases).
  now rewrite !andb_false_r.
Qed.

Lemma IPv4Address_ok (address : Z) :
  0 <= address < 2 ^ 32 -> IPv4Address address = Ok address.
Proof.
  intros H. unfold IPv4Address, ALL_ONES.
  destruct (Z.ltb_spec address 0); [lia|].
  destruct (Z.ltb_spec 0xFFFFFFFF address); [lia|]. reflexivity.
Qed.

Lemma IPv4Network_of_int_ok (address : Z) :
  0 <= address < 2 ^ 32 ->
  IPv4Network_of_int address = Ok (mkNetwork address 32).
Proof.
  intros H. unfold IPv4Network_of_int. now rewrite IPv4Address_ok.
Qed.

Lemma IPv4Network_of_pair_masked (c start : Z) :
  1 <= start <= 32 ->
  IPv4Network_of_pair (Z.land c (mask_from_slash (start - 1))) (start - 1) =
  Ok (mkNetwork (Z.land c (mask_from_slash (start - 1))) (start - 1)).
Proof.
  intros Hs. unfold IPv4Network_of_pair.
  rewrite IPv4Address_ok by apply masked_bound. cbn [bind].
  unfold make_netmask.
  destruct (Z.leb_spec 0 (start - 1)); [|lia].
  destruct (Z.leb_spec (start - 1) 32); [|lia].
  cbn [andb bind fst snd].
  rewrite ip_int_from_prefix_mask by lia.
  rewrite <- Z.land_assoc, Z.land_diag, Z.eqb_refl. reflexivity.
Qed.

Lemma masked_host_bits (c start pos : Z) :
  1 <= start -> start <= pos <= 32 ->
  is_bit_on (Z.land c (mask_from_slash (start - 1))) pos = false.
Proof.
  intros Hs Hpos. rewrite is_bit_on_testbit by lia.
  rewrite Z.land_spec, mask_from_slash_testbit by lia.
  replace (32 - (start - 1) <=? 32 - pos) with false by (symmetry; cmp_cases).
  cbn [andb]. apply andb_false_r.
Qed.

Lemma py_last_split {A : Type} (l : list A) (x : A) :
  py_last l = Ok x -> l = removelast l ++ [x].
Proof.
  unfold py_last. destruct (rev l) as [|y t] eqn:E; [discriminate|].
  intros [= ->].
  assert (Hl : l = rev t ++ [x]).
  { rewrite <- (rev_involutive l), E. reflexivity. }
  rewrite Hl at 2. rewrite removelast_last. exact Hl.
Qed.

Lemma py_last_In {A : Type} (l : list A) (x : A) : py_last l = Ok x -> In x l.
Proof.
  intros H. apply py_last_split in H. rewrite H. apply in_or_app.
  right. now left.
Qed.

(** ** unroll *)

Lemma process_host (c : Z) :
  0 <= c < 2 ^ 32 -> process None c = Ok (mkNetwork c 32).
Proof. intros H. unfold process. now apply IPv4Network_of_int_ok. Qed.

Lemma process_subnet (start end_ c : Z) :
  1 <= start <= 32 ->
  process (Some (start, end_)) c =
  Ok (mkNetwork (Z.land c (mask_from_slash (start - 1))) (start - 1)).
Proof. intros H. unfold process. now apply IPv4Network_of_pair_masked. Qed.

Lemma normalize_hosts (cands : list Z) :
  Forall (fun c => 0 <= c < 2 ^ 32) cands ->
  normalize None cands = Ok (map (fun c => mkNetwork c 32) cands).
Proof.
  intros H. unfold normalize. apply mapM_ok. intros c Hc.
  rewrite Forall_forall in H. apply process_host. now apply H.
Qed.

Lemma normalize_subnets (start end_ : Z) (cands : list Z) :
  1 <= start <= 32 ->
  normalize (Some (start, end_)) cands =
  Ok (map (fun c => mkNetwork (Z.land c (mask_from_slash (start - 1))) (start - 1))
          cands).
Proof.
  intros H. unfold normalize. apply mapM_ok. intros c _.
  now apply process_subnet.
Qed.

Lemma unroll_unfold (addr mask : string) (a m : Z) (last_rng : BitRange) :
  ip2long addr = Ok a -> ip2long mask = Ok m ->
  py_last (contiguous_bits m) = Ok last_rng ->
  unroll addr mask =
  if snd last_rng =? 32
  then unrolled <- unroller (removelast (contiguous_bits m)) [a] ;;
       normalize (Some last_rng) unrolled
  else unrolled <- unroller (contiguous_bits m) [a] ;;
       normalize None unrolled.
Proof.
  intros Ha Hm Hl. unfold unroll. rewrite Ha, Hm. cbn [bind].
  rewrite Hl. cbn [bind]. now destruct (snd last_rng =? 32).
Qed.

(** C5. The loop of lines 87-94 maps the candidates one to one, in
    order: with a trailing range [(s, e)] each candidate [c] becomes the
    subnet [c & mask_from_slash (s - 1)] of prefix length [s - 1]; without
    one each candidate becomes the host network of prefix length 32.  In
    [unroll], for an address and a mask that parse, when the last range
    found is [(s, 32)] the candidates are those of the other ranges and
    are normalized to subnets; when the last range ends before position 32
    the candidates are those of all the ranges and are mapped to hosts. *)
Theorem unroll_normalizes (addr mask : string) (a m : Z) (cands : list Z) :
  ip2long addr = Ok a -> ip2long mask = Ok m ->
  Forall (fun c => 0 <= c < 2 ^ 32) cands ->
  normalize None cands = Ok (map (fun c => mkNetwork c 32) cands) /\
  (forall s e, 1 <= s <= 32 ->
     normalize (Some (s, e)) cands =
       Ok (map (fun c => mkNetwork (Z.land c (mask_from_slash (s - 1))) (s - 1))
               cands)) /\
  (forall s e, py_last (contiguous_bits m) = Ok (s, e) ->
     (e = 32 ->
      exists unrolled,
        unroller (removelast (contiguous_bits m)) [a] = Ok unrolled /\
        unroll addr mask =
          Ok (map (fun c => mkNetwork (Z.land c (mask_from_slash (s - 1))) (s - 1))
                  unrolled)) /\
     (e <> 32 ->
      exists unrolled,
        unroller (contiguous_bits m) [a] = Ok unrolled /\
        unroll addr mask = Ok (map (fun c => mkNetwork c 32) unrolled))).
Proof.
  intros Ha Hm Hcands.
  split; [now apply normalize_hosts|].
  split; [intros s e Hs; now apply normalize_subnets|].
  intros s e Hl.
  pose proof (contiguous_bits_valid m) as Hv.
  assert (Hse : valid_range (s, e)).
  { rewrite Forall_forall in Hv. apply Hv. apply py_last_In. exact Hl. }
  assert (Hv' : Forall valid_range (removelast (contiguous_bits m))).
  { rewrite (py_last_split _ _ Hl) in Hv. apply Forall_app in Hv.
    exact (proj1 Hv). }
  assert (Hbound : Forall (fun p => 0 <= p < 2 ^ 32) [a]).
  { constructor; [|constructor]. now apply (ip2long_bound addr). }
  destruct Hse as [Hs He]. cbn [fst snd] in Hs, He.
  rewrite (unroll_unfold addr mask a m (s, e) Ha Hm Hl). cbn [snd].
  split; intros H32.
  - exists (expansion (removelast (contiguous_bits m)) [a]).
    split; [apply unroller_ok; assumption|].
    destruct (Z.eqb_spec e 32); [|contradiction].
    rewrite (unroller_ok _ _ Hv'). cbn [bind].
    apply normalize_subnets. lia.
  - exists (expansion (contiguous_bits m) [a]).
    assert (Hc : Forall (fun c => 0 <= c < 2 ^ 32)
                        (expansion (contiguous_bits m) [a]))
      by (apply expansion_bound; assumption).
    split; [apply unroller_ok; assumption|].
    destruct (Z.eqb_spec e 32); [contradiction|].
    rewrite (unroller_ok _ _ Hv). cbn [bind].
    apply normalize_hosts. assumption.
Qed.

Lemma unroll_normalizes_witness :
  normalize None [0x0A0C0E10] = Ok [mkNetwork 0x0A0C0E10 32] /\
  exists unrolled,
    unroller (removelast (contiguous_bits 0x00018001)) [0x0A0C0E10] = Ok unrolled /\
    unroll "10.12.14.16" "0.1.128.1" =
      Ok (map (fun c => mkNetwork (Z.land c (mask_from_slash (32 - 1))) (32 - 1))
              unrolled).
Proof.
  assert (Hc : Forall (fun c => 0 <= c < 2 ^ 32) [0x0A0C0E10])
    by (repeat constructor; lia).
  destruct (unroll_normalizes "10.12.14.16" "0.1.128.1"
              0x0A0C0E10 0x00018001 [0x0A0C0E10] eq_refl eq_refl Hc)
    as [Hn [_ Hu]].
  split; [exact Hn|].
  destruct (Hu 32 32 eq_refl) as [H _]. exact (H eq_refl).
Defined.

(** C10. When the last range found in a mask is [(s, 32)], for every
    candidate [c] the value [c & mask_from_slash (s - 1)] has a clear bit
    at every position from [s] to 32, and building the network of prefix
    length [s - 1] from it succeeds: the strict constructor never reports
    host bits. *)
Theorem trailing_subnet_never_fails (mask s e c : Z) :
  py_last (contiguous_bits mask) = Ok (s, e) -> e = 32 ->
  (forall pos, s <= pos <= 32 ->
     is_bit_on (Z.land c (mask_from_slash (s - 1))) pos = false) /\
  IPv4Network_of_pair (Z.land c (mask_from_slash (s - 1))) (s - 1) =
    Ok (mkNetwork (Z.land c (mask_from_slash (s - 1))) (s - 1)) /\
  process (Some (s, e)) c =
    Ok (mkNetwork (Z.land c (mask_from_slash (s - 1))) (s - 1)).
Proof.
  intros Hl He.
  pose proof (contiguous_bits_valid mask) as Hv. rewrite Forall_forall in Hv.
  apply py_last_In in Hl. apply Hv in Hl. cbn [fst snd] in Hl.
  split; [|split].
  - intros pos Hpos. apply masked_host_bits; lia.
  - apply IPv4Network_of_pair_masked. lia.
  - apply process_subnet. lia.
Qed.

Lemma trailing_subnet_never_fails_witness :
  process (Some (25, 32)) 0x0A0C0EFF = Ok (mkNetwork 0x0A0C0E00 24).
Proof.
  destruct (trailing_subnet_never_fails 0x000000FF 25 32 0x0A0C0EFF
              eq_refl eq_refl) as [_ [_ H]].
  exact H.
Defined.

(** *** The zero mask *)

Lemma unroll_zero_mask_raises (addr : string) (a : Z) :
  ip2long addr = Ok a -> unroll addr "0.0.0.0" = Raise IndexError.
Proof. intros Ha. unfold unroll. rewrite Ha. reflexivity. Qed.

(** C1. With the mask 0.0.0.0 no range is found, and taking the last
    element of the empty list of ranges at line 83 raises IndexError:
    [unroll] does not return the address as a single host. *)
Theorem unroll_zero_mask :
  contiguous_bits 0 = [] /\
  unroll "10.12.14.16" "0.0.0.0" = Raise IndexError.
Proof. split; reflexivity. Qed.

(** *** The scenarios of the script *)

(** C7, as stated, fails: the mask 0.1.0.0 does not give 4 results. *)
Lemma unroll_0_1_0_0_not_four :
  ~ exists out, unroll "10.12.14.16" "0.1.0.0" = Ok out /\ List.length out = 4%nat.
Proof. intros [out [H Hlen]]. vm_compute in H. injection H as <-. discriminate. Qed.

(** C7, amended. The mask 0.1.0.0 has the single set bit 16, which is not
    the last bit: [unroll] returns the 2 host addresses 10.12.14.16 and
    10.13.14.16, each with prefix length 32. *)
Theorem unroll_0_1_0_0 :
  contiguous_bits 0x00010000 = [(16, 16)] /\
  unroll "10.12.14.16" "0.1.0.0" =
    Ok [mkNetwork 0x0A0C0E10 32; mkNetwork 0x0A0D0E10 32].
Proof. split; reflexivity. Qed.

Lemma NoDup_by_nodup (l : list Z) : nodup Z.eq_dec l = l -> NoDup l.
Proof. intros H. rewrite <- H. apply NoDup_nodup. Qed.

(** C8. For the address 10.12.14.16 and the mask 240.0.0.2, whose ranges
    are [(1, 4)] and [(31, 31)], [unroll] returns [2^(4+1) = 32] results,
    pairwise distinct, each a host network of prefix length 32. *)
Theorem unroll_240_0_0_2 :
  contiguous_bits 0xF0000002 = [(1, 4); (31, 31)] /\
  exists out,
    unroll "10.12.14.16" "240.0.0.2" = Ok out /\
    Z.of_nat (List.length out) = 2 ^ (4 + 1) /\
    List.length out = 32%nat /\
    NoDup out /\
    Forall (fun n => prefixlen n = 32) out.
Proof.
  split; [reflexivity|].
  destruct (unroll "10.12.14.16" "240.0.0.2") as [out|] eqn:E;
    [|vm_compute in E; discriminate].
  exists out. split; [reflexivity|].
  vm_compute in E. injection E as <-.
  split; [reflexivity|]. split; [reflexivity|]. split.
  - apply (NoDup_map_inv network_address). apply NoDup_by_nodup.
    vm_compute. reflexivity.
  - repeat constructor.
Qed.

(** * Further properties *)

(** ** mask_from_slash outside 0..32 *)





(** ** is_bit_on *)

(** Position 1 is the most significant of the 32 bits and position 32 the
    least significant: for a position from 1 to 32, [is_bit_on] reads the
    bit of weight [2^(32 - bit)] and ignores whatever lies above the 32
    bits. *)
Theorem is_bit_on_position (number bit : Z) :
  1 <= bit <= 32 ->
  is_bit_on number bit = Z.testbit number (32 - bit) /\
  is_bit_on number bit = Z.odd (number / 2 ^ (32 - bit)) /\
  is_bit_on number bit = is_bit_on (number mod 2 ^ 32) bit.
Proof.
  intros H. split; [apply is_bit_on_testbit; lia|]. split.
  - rewrite is_bit_on_testbit by lia.
    now rewrite Z.testbit_odd, Z.shiftr_div_pow2 by lia.
  - rewrite !is_bit_on_testbit by lia.
    now rewrite Z.mod_pow2_bits_low by lia.
Qed.

Lemma is_bit_on_position_witness :
  is_bit_on 0x80000001 1 = Z.testbit 0x80000001 (32 - 1) /\
  is_bit_on 0x180000001 1 = is_bit_on (0x180000001 mod 2 ^ 32) 1.
Proof.
  assert (H : 1 <= 1 <= 32) by lia.
  split.
  - apply (proj1 (is_bit_on_position 0x80000001 1 H)).
  - apply (proj2 (proj2 (is_bit_on_position 0x180000001 1 H))).
Defined.

(** ** ip2long: the value *)

Lemma pack_byte_add (acc byte : Z) :
  0 <= byte <= 255 -> Z.lor (Z.shiftl acc 8) byte = acc * 256 + byte.
Proof.
  intros Hb.
  assert (H0 : Z.land (Z.shiftl acc 8) byte = 0).
  { apply Z.bits_inj'. intros i Hi.
    rewrite Z.land_spec, Z.bits_0, Z.shiftl_spec by lia.
    destruct (Z.lt_ge_cases i 8).
    - now rewrite Z.testbit_neg_r by lia.
    - rewrite (bits_above byte 8) by lia. apply andb_false_r. }
  rewrite <- Z.lxor_lor, <- Z.add_nocarry_lxor by assumption.
  rewrite Z.shiftl_mul_pow2 by lia. reflexivity.
Qed.

(** When [ip2long] returns, the string held four octets [a.b.c.d], each
    from 0 to 255, and the result is [a*2^24 + b*2^16 + c*2^8 + d], the
    big-endian reading of the packed address: a value below [2^32] from
    which each octet can be read back. *)
Theorem ip2long_value (ip : string) (n : Z) :
  ip2long ip = Ok n ->
  exists a b c d,
    inet_aton ip = Ok [a; b; c; d] /\
    0 <= a <= 255 /\ 0 <= b <= 255 /\ 0 <= c <= 255 /\ 0 <= d <= 255 /\
    n = a * 2 ^ 24 + b * 2 ^ 16 + c * 2 ^ 8 + d /\
    0 <= n < 2 ^ 32 /\
    a = n / 2 ^ 24 /\ b = (n / 2 ^ 16) mod 256 /\
    c = (n / 2 ^ 8) mod 256 /\ d = n mod 256.
Proof.
  intros H. pose proof (ip2long_bound ip n H) as Hn.
  unfold ip2long in H.
  destruct (inet_aton ip) as [packed|] eqn:E; [|discriminate].
  cbn [bind] in H. injection H as <-.
  destruct (inet_aton_bytes ip packed E) as [a [b [c [d [-> [Ha [Hb [Hc Hd]]]]]]]].
  exists a, b, c, d.
  assert (Hv : unpack_be32 [a; b; c; d] = a * 2 ^ 24 + b * 2 ^ 16 + c * 2 ^ 8 + d).
  { unfold unpack_be32. cbn [fold_left].
    rewrite !pack_byte_add by assumption. lia. }
  rewrite Hv in *.
  repeat (split; [first [reflexivity | assumption]|]).
  set (n := a * 2 ^ 24 + b * 2 ^ 16 + c * 2 ^ 8 + d) in *.
  assert (H16 : n / 2 ^ 16 = a * 256 + b).
  { symmetry. apply Z.div_unique with (c * 2 ^ 8 + d); lia. }
  assert (H8 : n / 2 ^ 8 = a * 65536 + b * 256 + c).
  { symmetry. apply Z.div_unique with d; lia. }
  rewrite H16, H8. repeat split.
  - apply Z.div_unique with (b * 2 ^ 16 + c * 2 ^ 8 + d); lia.
  - apply Z.mod_unique with a; lia.
  - apply Z.mod_unique with (a * 256 + b); lia.
  - apply Z.mod_unique with (a * 65536 + b * 256 + c); lia.
Qed.

Lemma ip2long_value_witness :
  exists a b c d,
    inet_aton "10.12.14.16" = Ok [a; b; c; d] /\
    0 <= a <= 255 /\ 0 <= b <= 255 /\ 0 <= c <= 255 /\ 0 <= d <= 255 /\
    0x0A0C0E10 = a * 2 ^ 24 + b * 2 ^ 16 + c * 2 ^ 8 + d /\
    0 <= 0x0A0C0E10 < 2 ^ 32 /\
    a = 0x0A0C0E10 / 2 ^ 24 /\ b = (0x0A0C0E10 / 2 ^ 16) mod 256 /\
    c = (0x0A0C0E10 / 2 ^ 8) mod 256 /\ d = 0x0A0C0E10 mod 256.
Proof. apply (ip2long_value "10.12.14.16" 0x0A0C0E10). reflexivity. Defined.

(** ** contiguous_bits: further facts *)

Lemma contiguous_bits_nonempty (mask : Z) :
  0 <= mask < 2 ^ 32 -> mask <> 0 -> contiguous_bits mask <> [].
Proof.
  intros Hm Hnz E. apply Hnz.
  rewrite <- (or_ranges_contiguous_bits mask Hm), E. reflexivity.
Qed.

Lemma is_bit_on_low_bits (number bit : Z) :
  1 <= bit <= 32 -> is_bit_on number bit = is_bit_on (number mod 2 ^ 32) bit.
Proof.
  intros H. rewrite !is_bit_on_testbit by lia.
  now rewrite Z.mod_pow2_bits_low by lia.
Qed.

(** A 32-bit mask has no range exactly when it is zero. *)
Theorem contiguous_bits_empty_iff (mask : Z) :
  0 <= mask < 2 ^ 32 -> (contiguous_bits mask = [] <-> mask = 0).
Proof.
  intros Hm. split.
  - intros E. rewrite <- (or_ranges_contiguous_bits mask Hm), E. reflexivity.
  - intros ->. reflexivity.
Qed.

Lemma contiguous_bits_empty_iff_witness :
  contiguous_bits 0x00010000 = [] <-> 0x00010000 = 0.
Proof. apply contiguous_bits_empty_iff. lia. Defined.

Lemma py_last_snoc {A : Type} (l : list A) (x : A) : py_last (l ++ [x]) = Ok x.
Proof. unfold py_last. now rewrite rev_unit. Qed.

Lemma ends_at_32_is_last (mask : Z) (r : BitRange) :
  In r (contiguous_bits mask) -> snd r = 32 ->
  py_last (contiguous_bits mask) = Ok r.
Proof.
  intros Hin H32.
  pose proof (contiguous_bits_valid mask) as Hv.
  pose proof (contiguous_bits_gap mask) as Hg.
  destruct (in_split _ _ Hin) as [l1 [l2 E]]. rewrite E in Hv, Hg |- *.
  destruct l2 as [|b l2]; [apply py_last_snoc|]. exfalso.
  apply ForallOrdPairs_app in Hg. destruct Hg as [_ [Hg _]].
  inversion Hg as [|? ? Hrb _]; subst.
  apply Forall_inv in Hrb. unfold gap in Hrb.
  apply Forall_app in Hv. destruct Hv as [_ Hv].
  apply Forall_inv_tail, Forall_inv in Hv. lia.
Qed.

(** Only the last range found can end at position 32, and one does exactly
    when the least significant bit of the mask is set: this is the test of
    line 83 that makes [unroll] return subnets instead of addresses. *)
Theorem trailing_range_iff_low_bit (mask : Z) :
  (forall r, In r (contiguous_bits mask) -> snd r = 32 ->
     py_last (contiguous_bits mask) = Ok r) /\
  (is_bit_on mask 32 = true <->
   exists s, py_last (contiguous_bits mask) = Ok (s, 32)).
Proof.
  split; [intros r; apply ends_at_32_is_last|].
  pose proof (contiguous_bits_valid mask) as Hv. rewrite Forall_forall in Hv.
  split.
  - intros Hb. apply contiguous_bits_cover in Hb; [|lia].
    destruct Hb as [[s e] [Hr Hc]]. pose proof (Hv _ Hr) as Hs.
    unfold covers in Hc. cbn [fst snd] in *.
    assert (e = 32) by lia. subst e. exists s.
    apply ends_at_32_is_last; [exact Hr|reflexivity].
  - intros [s Hl]. apply py_last_In in Hl.
    apply contiguous_bits_cover; [lia|]. exists (s, 32). split; [exact Hl|].
    apply Hv in Hl. unfold covers. cbn [fst snd] in *. lia.
Qed.

Lemma ranges_count (lo : Z) (l : list BitRange) :
  Forall (fun r => lo <= fst r <= snd r /\ snd r <= 32) l ->
  ForallOrdPairs gap l ->
  l <> [] -> lo + 2 * Z.of_nat (List.length l) <= 34.
Proof.
  revert lo. induction l as [|r l IH]; intros lo Hv Hg Hne; [contradiction|].
  inversion Hv as [|? ? Hr Hv']; subst.
  inversion Hg as [|? ? Hrl Hg']; subst.
  destruct l as [|b l]; [simpl; lia|].
  assert (H : lo + 2 + 2 * Z.of_nat (List.length (b :: l)) <= 34).
  { apply IH; [|assumption|discriminate].
    rewrite Forall_forall in *. intros x Hx.
    specialize (Hv' x Hx). specialize (Hrl x Hx). unfold gap in Hrl. lia. }
  change (List.length (r :: b :: l)) with (S (List.length (b :: l))). lia.
Qed.

(** A mask never has more than 16 ranges: two ranges are separated by a
    clear bit and all lie within positions 1 to 32. *)
Theorem contiguous_bits_count (mask : Z) :
  (List.length (contiguous_bits mask) <= 16)%nat.
Proof.
  destruct (contiguous_bits mask) as [|r l] eqn:E; [simpl; lia|].
  pose proof (ranges_count 1 (contiguous_bits mask)
                (contiguous_bits_valid mask) (contiguous_bits_gap mask)) as H.
  rewrite E in H. specialize (H ltac:(discriminate)). lia.
Qed.

Lemma fold_left_ext_in {A B : Type} (f g : A -> B -> A) (l : list B) (a : A) :
  (forall x b, In b l -> f x b = g x b) -> fold_left f l a = fold_left g l a.
Proof.
  revert a. induction l as [|b l IH]; intros a H; [reflexivity|].
  simpl. rewrite (H a b) by now left.
  apply IH. intros x c Hc. apply H. now right.
Qed.

(** Only the 32 low bits of the mask are read: a Python integer of any
    size gives the ranges of its value modulo [2^32]. *)
Theorem contiguous_bits_low_bits (mask : Z) :
  contiguous_bits mask = contiguous_bits (mask mod 2 ^ 32).
Proof.
  unfold contiguous_bits. f_equal. apply fold_left_ext_in.
  intros st bit Hb. apply py_range_In in Hb. unfold scan_step.
  rewrite (is_bit_on_low_bits mask bit) by lia. reflexivity.
Qed.

(** ** unroller: edge cases and errors *)


Lemma py_range_cons (lo hi : Z) :
  lo < hi -> py_range lo hi = lo :: py_range (lo + 1) hi.
Proof.
  intros H. unfold py_range.
  replace (Z.to_nat (hi - lo)) with (S (Z.to_nat (hi - (lo + 1)))) by lia.
  cbn [seq map]. f_equal; [lia|].
  rewrite <- seq_shift, map_map. apply map_ext. intros i. lia.
Qed.




(** ** unroller: the set of candidates *)

Lemma in_expansion_groups (ranges : list BitRange) (seeds : list Z) (c : Z) :
  In c (expansion ranges seeds) <->
  exists seed, In seed seeds /\ In c (expansion ranges [seed]).
Proof.
  rewrite expansion_groups, in_concat. split.
  - intros [g [Hg Hc]]. apply in_map_iff in Hg. destruct Hg as [seed [<- Hs]].
    now exists seed.
  - intros [seed [Hs Hc]]. exists (expansion ranges [seed]).
    split; [|assumption]. apply in_map_iff. now exists seed.
Qed.

Lemma expansion_complete (ranges : list BitRange) :
  Forall valid_range ranges ->
  forall seed c,
    0 <= seed < 2 ^ 32 -> 0 <= c < 2 ^ 32 ->
    agree_outside ranges c seed -> In c (expansion ranges [seed]).
Proof.
  induction 1 as [|r ranges Hr Hv IH]; intros seed c Hseed Hc Hag.
  - left. apply Z.bits_inj'. intros i Hi.
    destruct (Z.lt_ge_cases i 32).
    + replace i with (32 - (32 - i)) by lia. symmetry.
      apply Hag; [lia|]. intros r [].
    + now rewrite (bits_above seed 32), (bits_above c 32) by lia.
  - cbn [expansion fold_left]. apply in_expansion_groups.
    destruct r as [s e]. pose proof Hr as [Hs He]. cbn [fst snd] in Hs, He.
    set (w := e - s + 1).
    set (f := Z.land (Z.shiftr c (32 - e)) (Z.ones w)).
    assert (Hf : 0 <= f < 2 ^ w).
    { unfold f. rewrite Z.land_ones by (unfold w; lia).
      apply Z.mod_pos_bound. apply Z.pow_pos_nonneg; unfold w; lia. }
    exists (substitute s e seed f). split.
    + apply in_expand_step. exists seed, f.
      split; [now left|]. split; [exact Hf|reflexivity].
    + apply IH; [now apply substitute_bound|assumption|].
      intros pos Hpos Hnc. rewrite substitute_testbit by assumption.
      destruct (Z.leb_spec s pos) as [H1|H1];
        [destruct (Z.leb_spec pos e) as [H2|H2]|]; cbn [andb].
      * unfold f. rewrite Z.land_spec, Z.shiftr_spec by lia.
        rewrite Z.testbit_ones_nonneg by lia.
        replace (e - pos + (32 - e)) with (32 - pos) by lia.
        replace (e - pos <? w) with true
          by (symmetry; apply Z.ltb_lt; unfold w; lia).
        now rewrite andb_true_r.
      * apply Hag; [assumption|]. intros r' [<-|Hr'].
        -- unfold covers. cbn [fst snd]. lia.
        -- now apply Hnc.
      * apply Hag; [assumption|]. intros r' [<-|Hr'].
        -- unfold covers. cbn [fst snd]. lia.
        -- now apply Hnc.
Qed.

(** From a 32-bit seed and well-formed ranges, [unroller] returns exactly
    the 32-bit values that have the bits of the seed at every position no
    range covers, the bits inside the ranges being free: every combination
    is produced and nothing else. *)
Theorem unroller_candidates (ranges : list BitRange) (seed : Z) :
  Forall valid_range ranges -> 0 <= seed < 2 ^ 32 ->
  exists out,
    unroller ranges [seed] = Ok out /\
    forall c, In c out <->
      (0 <= c < 2 ^ 32 /\
       forall pos, 1 <= pos <= 32 ->
         (forall r, In r ranges -> ~ (fst r <= pos <= snd r)) ->
         is_bit_on c pos = is_bit_on seed pos).
Proof.
  intros Hv Hseed. exists (expansion ranges [seed]).
  split; [now apply unroller_ok|]. intros c. split.
  - intros Hc. split.
    + assert (Hb : Forall (fun p => 0 <= p < 2 ^ 32) [seed])
        by (repeat constructor; lia).
      pose proof (expansion_bound ranges Hv [seed] Hb) as H.
      rewrite Forall_forall in H. now apply H.
    + destruct (expansion_agree ranges Hv [seed] c Hc) as [p [[<-|[]] Hag]].
      intros pos Hpos Hnc. rewrite !is_bit_on_testbit by lia. now apply Hag.
  - intros [Hc Hag]. apply expansion_complete; try assumption.
    intros pos Hpos Hnc. rewrite <- !is_bit_on_testbit by lia.
    now apply Hag.
Qed.

Lemma unroller_candidates_witness :
  exists out,
    unroller [(1, 4); (31, 31)] [0x0A0C0E10] = Ok out /\
    forall c, In c out <->
      (0 <= c < 2 ^ 32 /\
       forall pos, 1 <= pos <= 32 ->
         (forall r, In r [(1, 4); (31, 31)] -> ~ (fst r <= pos <= snd r)) ->
         is_bit_on c pos = is_bit_on 0x0A0C0E10 pos).
Proof.
  apply (unroller_candidates [(1, 4); (31, 31)] 0x0A0C0E10).
  - repeat constructor; simpl; lia.
  - lia.
Defined.

(** ** unroll: outcome *)

Lemma py_last_nonempty {A : Type} (l : list A) :
  l <> [] -> exists x, py_last l = Ok x.
Proof.
  intros Hne. unfold py_last. destruct (rev l) as [|x t] eqn:E.
  - exfalso. apply Hne. rewrite <- (rev_involutive l), E. reflexivity.
  - now exists x.
Qed.

Lemma expanded_ranges_valid (mask : Z) : Forall valid_range (expanded_ranges mask).
Proof.
  unfold expanded_ranges. pose proof (contiguous_bits_valid mask) as Hv.
  destruct (py_last (contiguous_bits mask)) as [[s e]|] eqn:El; [|constructor].
  destruct (e =? 32); [|exact Hv].
  rewrite (py_last_split _ _ El) in Hv. apply Forall_app in Hv. exact (proj1 Hv).
Qed.

Lemma unroll_result (addr mask : string) (a m s e : Z) :
  ip2long addr = Ok a -> ip2long mask = Ok m ->
  py_last (contiguous_bits m) = Ok (s, e) ->
  unroll addr mask =
  Ok (map (fun c => mkNetwork (if e =? 32 then Z.land c (mask_from_slash (s - 1))
                               else c)
                              (result_prefixlen m))
          (expansion (expanded_ranges m) [a])).
Proof.
  intros Ha Hm Hl.
  pose proof (expanded_ranges_valid m) as Hv.
  pose proof (contiguous_bits_valid m) as Hall. rewrite Forall_forall in Hall.
  pose proof (Hall _ (py_last_In _ _ Hl)) as Hse. cbn [fst snd] in Hse.
  assert (Hb : Forall (fun c => 0 <= c < 2 ^ 32) (expansion (expanded_ranges m) [a])).
  { apply expansion_bound; [exact Hv|]. constructor; [|constructor].
    exact (ip2long_bound addr a Ha). }
  rewrite (unroll_unfold addr mask a m (s, e) Ha Hm Hl). cbn [snd].
  unfold expanded_ranges, result_prefixlen in *. rewrite Hl in *.
  destruct (e =? 32).
  - rewrite (unroller_ok _ _ Hv). cbn [bind]. apply normalize_subnets. lia.
  - rewrite (unroller_ok _ _ Hv). cbn [bind]. apply normalize_hosts. exact Hb.
Qed.


(** ** unroll: what the results cover *)

Lemma land_eq_testbit (x c mask i : Z) :
  Z.land x mask = Z.land c mask -> Z.testbit mask i = true ->
  Z.testbit x i = Z.testbit c i.
Proof.
  intros H Hm. apply (f_equal (fun z => Z.testbit z i)) in H.
  now rewrite !Z.land_spec, Hm, !andb_true_r in H.
Qed.

Lemma mask_from_slash_bit_set (prefix pos : Z) :
  1 <= pos <= 32 -> pos <= prefix ->
  Z.testbit (mask_from_slash prefix) (32 - pos) = true.
Proof.
  intros Hpos Hp. rewrite mask_from_slash_testbit by lia. cmp_cases.
Qed.

Section Cover.

(** The ranges that were expanded, the prefix length of the results, and
    how they relate to the mask. *)
Variables (ranges : list BitRange) (prefix addr mask : Z).
Hypothesis Hprefix : 0 <= prefix <= 32.
Hypothesis Hvalid : Forall valid_range ranges.
Hypothesis Hbefore : forall r, In r ranges -> snd r <= prefix.
Hypothesis Haddr : 0 <= addr < 2 ^ 32.
Hypothesis Hcover : forall pos, 1 <= pos <= 32 ->
  (is_bit_on mask pos = true <->
   (exists r, In r ranges /\ covers r pos) \/ prefix < pos).

Lemma in_candidates (c : Z) :
  In c (expansion ranges [addr]) <->
  0 <= c < 2 ^ 32 /\ agree_outside ranges c addr.
Proof.
  split.
  - intros Hc. split.
    + assert (Hb : Forall (fun p => 0 <= p < 2 ^ 32) [addr])
        by (repeat constructor; lia).
      pose proof (expansion_bound ranges Hvalid [addr] Hb) as H.
      rewrite Forall_forall in H. now apply H.
    + destruct (expansion_agree ranges Hvalid [addr] c Hc) as [p [[<-|[]] H]].
      exact H.
  - intros [Hc Hag]. now apply expansion_complete.
Qed.

Lemma clear_bit_position (pos : Z) :
  1 <= pos <= 32 -> is_bit_on mask pos = false ->
  pos <= prefix /\ forall r, In r ranges -> ~ covers r pos.
Proof.
  intros Hpos Hoff. split.
  - destruct (Z.le_gt_cases pos prefix) as [|Hgt]; [assumption|].
    assert (H : is_bit_on mask pos = true) by (apply Hcover; [lia|right; lia]).
    congruence.
  - intros r Hr Hc.
    assert (H : is_bit_on mask pos = true)
      by (apply Hcover; [lia|left; now exists r]).
    congruence.
Qed.

Lemma masked_candidates_inj (c1 c2 : Z) :
  In c1 (expansion ranges [addr]) -> In c2 (expansion ranges [addr]) ->
  Z.land c1 (mask_from_slash prefix) = Z.land c2 (mask_from_slash prefix) ->
  c1 = c2.
Proof.
  intros H1 H2 E. apply in_candidates in H1, H2.
  destruct H1 as [Hb1 Ha1], H2 as [Hb2 Ha2].
  apply Z.bits_inj'. intros i Hi.
  destruct (Z.lt_ge_cases i 32).
  - destruct (Z.le_gt_cases (32 - i) prefix).
    + apply (land_eq_testbit _ _ _ _ E).
      replace i with (32 - (32 - i)) by lia.
      apply mask_from_slash_bit_set; lia.
    + replace i with (32 - (32 - i)) by lia.
      rewrite Ha1, Ha2; try lia; try reflexivity;
        intros r Hr Hc; apply Hbefore in Hr; unfold covers in Hc; lia.
  - now rewrite (bits_above c1 32), (bits_above c2 32) by lia.
Qed.

Lemma wildcard_match_candidates (x : Z) :
  0 <= x < 2 ^ 32 ->
  (wildcard_match addr mask x <->
   exists c, In c (expansion ranges [addr]) /\
             Z.land x (mask_from_slash prefix) = Z.land c (mask_from_slash prefix)).
Proof.
  intros Hx. split.
  - intros Hm.
    set (c := Z.lor (Z.land x (mask_from_slash prefix))
                    (Z.land addr (Z.shiftr (mask_from_slash 32) prefix))).
    assert (Hbit : forall i, 0 <= i ->
              Z.testbit c i =
              if (32 - prefix <=? i) && (i <? 32) then Z.testbit x i
              else (i <? 32) && Z.testbit addr i).
    { intros i Hi. unfold c.
      rewrite Z.lor_spec, !Z.land_spec, Z.shiftr_spec by lia.
      rewrite !mask_from_slash_testbit by lia.
      destruct (Z.leb_spec (32 - prefix) i); destruct (Z.ltb_spec i 32);
        cbn [andb].
      - replace (0 <? prefix) with true by (symmetry; cmp_cases).
        replace (i + prefix <? 32) with false by (symmetry; cmp_cases).
        now rewrite !andb_true_r, !andb_false_r, orb_false_r.
      - rewrite (bits_above x 32), (bits_above addr 32) by lia. reflexivity.
      - replace (32 - 32 <=? i + prefix) with true by (symmetry; cmp_cases).
        replace (i + prefix <? 32) with true by (symmetry; cmp_cases).
        cbn [andb]. now rewrite !andb_false_r, !andb_true_r.
      - rewrite (bits_above addr 32) by lia. now rewrite !andb_false_r. }
    exists c. split.
    + apply in_candidates. split.
      * assert (Hn : 0 <= c).
        { unfold c. apply Z.lor_nonneg. split; apply Z.land_nonneg; left; lia. }
        split; [exact Hn|]. apply bits_bound; [exact Hn|lia|].
        intros i Hi. rewrite Hbit by lia.
        destruct (Z.ltb_spec i 32); [lia|].
        now rewrite andb_false_r.
      * intros pos Hpos Hnc. rewrite Hbit by lia.
        replace (32 - pos <? 32) with true by (symmetry; cmp_cases).
        destruct (Z.leb_spec (32 - prefix) (32 - pos)); cbn [andb];
          [|reflexivity].
        rewrite <- !is_bit_on_testbit by lia. apply Hm; [assumption|].
        destruct (is_bit_on mask pos) eqn:Hb; [|reflexivity].
        apply Hcover in Hb; [|assumption].
        destruct Hb as [[r [Hr Hc]]|Hgt]; [|lia].
        exfalso. exact (Hnc r Hr Hc).
    + apply Z.bits_inj'. intros i Hi.
      rewrite !Z.land_spec, Hbit, mask_from_slash_testbit by lia.
      destruct ((32 - prefix <=? i) && (i <? 32)); cbn [andb];
        [reflexivity|now rewrite !andb_false_r].
  - intros [c [Hc E]] pos Hpos Hoff.
    apply in_candidates in Hc. destruct Hc as [_ Hag].
    destruct (clear_bit_position pos Hpos Hoff) as [Hle Hnc].
    rewrite !is_bit_on_testbit by lia.
    rewrite (land_eq_testbit _ _ _ _ E)
      by (apply mask_from_slash_bit_set; assumption).
    now apply Hag.
Qed.

End Cover.

Lemma land_all_ones (c : Z) :
  0 <= c < 2 ^ 32 -> Z.land c (mask_from_slash 32) = c.
Proof.
  intros Hc. change (mask_from_slash 32) with (Z.ones 32).
  rewrite Z.land_ones by lia. now apply Z.mod_small.
Qed.

Lemma gap_disjoint (l : list BitRange) :
  ForallOrdPairs gap l -> ForallOrdPairs disjoint l.
Proof.
  apply ForallOrdPairs_impl. intros a b _ _ H. unfold gap in H. left. lia.
Qed.

Lemma expanded_ranges_facts (m s e : Z) :
  py_last (contiguous_bits m) = Ok (s, e) ->
  0 <= result_prefixlen m <= 32 /\
  (forall r, In r (expanded_ranges m) -> snd r <= result_prefixlen m) /\
  (forall pos, 1 <= pos <= 32 ->
     (is_bit_on m pos = true <->
      (exists r, In r (expanded_ranges m) /\ covers r pos) \/
      result_prefixlen m < pos)) /\
  ForallOrdPairs disjoint (expanded_ranges m).
Proof.
  intros Hl.
  pose proof (contiguous_bits_valid m) as Hv.
  pose proof (contiguous_bits_gap m) as Hg.
  pose proof (contiguous_bits_cover m) as Hc.
  unfold expanded_ranges, result_prefixlen. rewrite Hl.
  pose proof (py_last_split _ _ Hl) as E.
  remember (removelast (contiguous_bits m)) as front eqn:Ef. clear Ef.
  remember (contiguous_bits m) as all eqn:Ea. clear Ea. subst all.
  apply Forall_app in Hv. destruct Hv as [Hv1 Hv2].
  apply Forall_inv in Hv2. cbn [fst snd] in Hv2.
  rewrite Forall_forall in Hv1.
  destruct (Z.eqb_spec e 32) as [->|Hne].
  - apply ForallOrdPairs_app in Hg. destruct Hg as [Hg1 [_ Hg2]].
    split; [lia|]. split; [|split].
    + intros r Hr. specialize (Hg2 r (s, 32) Hr ltac:(now left)).
      unfold gap in Hg2. cbn [fst] in Hg2. lia.
    + intros pos Hpos. rewrite (Hc pos Hpos). split.
      * intros [r [Hr Hcov]]. apply in_app_or in Hr. destruct Hr as [Hr|[<-|[]]].
        -- left. now exists r.
        -- right. unfold covers in Hcov. cbn [fst] in Hcov. lia.
      * intros [[r [Hr Hcov]]|Hgt].
        -- exists r. split; [apply in_or_app; now left|assumption].
        -- exists (s, 32). split; [apply in_or_app; right; now left|].
           unfold covers. cbn [fst snd]. lia.
    + now apply gap_disjoint.
  - split; [lia|]. split; [|split].
    + intros r Hr. apply in_app_or in Hr. destruct Hr as [Hr|[<-|[]]].
      * specialize (Hv1 r Hr). lia.
      * cbn [snd]. lia.
    + intros pos Hpos. rewrite (Hc pos Hpos). split.
      * intros H. now left.
      * intros [H|H]; [assumption|lia].
    + now apply gap_disjoint.
Qed.

Lemma unroll_result_masked (addr mask : string) (a m s e : Z) :
  ip2long addr = Ok a -> ip2long mask = Ok m ->
  py_last (contiguous_bits m) = Ok (s, e) ->
  unroll addr mask =
  Ok (map (fun c => mkNetwork (Z.land c (mask_from_slash (result_prefixlen m)))
                              (result_prefixlen m))
          (expansion (expanded_ranges m) [a])).
Proof.
  intros Ha Hm Hl. rewrite (unroll_result addr mask a m s e Ha Hm Hl).
  f_equal. apply map_ext_in. intros c Hc. f_equal.
  assert (Hb : 0 <= c < 2 ^ 32).
  { assert (H0 : Forall (fun p => 0 <= p < 2 ^ 32) [a]).
    { constructor; [|constructor]. exact (ip2long_bound addr a Ha). }
    pose proof (expansion_bound _ (expanded_ranges_valid m) [a] H0) as H.
    rewrite Forall_forall in H. apply H. exact Hc. }
  unfold result_prefixlen. rewrite Hl.
  destruct (e =? 32); [reflexivity|]. symmetry. apply land_all_ones. exact Hb.
Qed.

(** For an address and a non-zero mask that parse, [unroll] returns
    [2^w] results, [w] being the total width of the ranges other than a
    trailing one, and no two results are equal. *)
Theorem unroll_count (addr mask : string) (a m : Z) :
  ip2long addr = Ok a -> ip2long mask = Ok m -> m <> 0 ->
  exists out,
    unroll addr mask = Ok out /\
    Z.of_nat (List.length out) = 2 ^ total_width (expanded_ranges m) /\
    NoDup out.
Proof.
  intros Ha Hm Hnz.
  assert (Hne : contiguous_bits m <> [])
    by (apply contiguous_bits_nonempty; [exact (ip2long_bound mask m Hm)|exact Hnz]).
  destruct (py_last_nonempty _ Hne) as [[s e] Hl].
  destruct (expanded_ranges_facts m s e Hl) as [HP [Hbefore [Hcov Hdis]]].
  pose proof (expanded_ranges_valid m) as Hv.
  pose proof (ip2long_bound addr a Ha) as Hb.
  rewrite (unroll_result_masked addr mask a m s e Ha Hm Hl).
  eexists. split; [reflexivity|]. split.
  - rewrite length_map, expansion_length by assumption.
    cbn [List.length]. lia.
  - apply Injective_map_NoDup_in.
    + intros c1 c2 H1 H2 E. injection E as E.
      exact (masked_candidates_inj _ _ _ Hv Hbefore Hb c1 c2 H1 H2 E).
    + apply expansion_distinct; try assumption. repeat constructor.
Qed.

Lemma unroll_count_witness :
  exists out,
    unroll "10.12.14.16" "0.1.128.1" = Ok out /\
    Z.of_nat (List.length out) = 2 ^ total_width (expanded_ranges 0x00018001) /\
    NoDup out.
Proof.
  apply (unroll_count "10.12.14.16" "0.1.128.1" 0x0A0C0E10 0x00018001);
    [reflexivity|reflexivity|lia].
Defined.

(** For an address and a non-zero mask that parse, the networks [unroll]
    returns cover exactly the 32-bit addresses that have the bits of the
    base address wherever the mask has a clear bit, and each such address
    lies in one result only. *)
Theorem unroll_covers_wildcard (addr mask : string) (a m : Z) :
  ip2long addr = Ok a -> ip2long mask = Ok m -> m <> 0 ->
  exists out,
    unroll addr mask = Ok out /\
    forall x, 0 <= x < 2 ^ 32 ->
      (wildcard_match a m x <-> exists n, In n out /\ in_network n x) /\
      (forall n1 n2, In n1 out -> In n2 out ->
         in_network n1 x -> in_network n2 x -> n1 = n2).
Proof.
  intros Ha Hm Hnz.
  assert (Hne : contiguous_bits m <> [])
    by (apply contiguous_bits_nonempty; [exact (ip2long_bound mask m Hm)|exact Hnz]).
  destruct (py_last_nonempty _ Hne) as [[s e] Hl].
  destruct (expanded_ranges_facts m s e Hl) as [HP [Hbefore [Hcov _]]].
  pose proof (expanded_ranges_valid m) as Hv.
  pose proof (ip2long_bound addr a Ha) as Hb.
  rewrite (unroll_result_masked addr mask a m s e Ha Hm Hl).
  eexists. split; [reflexivity|]. intros x Hx. split.
  - rewrite (wildcard_match_candidates _ _ _ _ HP Hv Hb Hcov x Hx).
    split.
    + intros [c [Hc E]]. eexists. split.
      * apply in_map_iff. exists c. split; [reflexivity|exact Hc].
      * unfold in_network. cbn [prefixlen network_address].
        rewrite ip_int_from_prefix_mask by assumption. exact E.
    + intros [n [Hn Hin]]. apply in_map_iff in Hn.
      destruct Hn as [c [<- Hc]]. exists c. split; [exact Hc|].
      unfold in_network in Hin. cbn [prefixlen network_address] in Hin.
      rewrite ip_int_from_prefix_mask in Hin by assumption. exact Hin.
  - intros n1 n2 H1 H2 I1 I2. apply in_map_iff in H1, H2.
    destruct H1 as [c1 [<- _]], H2 as [c2 [<- _]].
    unfold in_network in I1, I2. cbn [prefixlen network_address] in I1, I2.
    rewrite <- I1, <- I2. reflexivity.
Qed.

Lemma unroll_covers_wildcard_witness :
  exists out,
    unroll "10.12.14.16" "0.1.128.1" = Ok out /\
    forall x, 0 <= x < 2 ^ 32 ->
      (wildcard_match 0x0A0C0E10 0x00018001 x <->
       exists n, In n out /\ in_network n x) /\
      (forall n1 n2, In n1 out -> In n2 out ->
         in_network n1 x -> in_network n2 x -> n1 = n2).
Proof.
  apply (unroll_covers_wildcard "10.12.14.16" "0.1.128.1" 0x0A0C0E10 0x00018001);
    [reflexivity|reflexivity|lia].
Defined.

(** ** Order of the results *)

Lemma shiftr_lt_weaken (a b k K : Z) :
  0 <= k <= K -> Z.shiftr a K < Z.shiftr b K -> Z.shiftr a k < Z.shiftr b k.
Proof.
  intros Hk H. destruct (Z.lt_ge_cases (Z.shiftr a k) (Z.shiftr b k)) as [|Hge];
    [assumption|exfalso].
  replace K with (k + (K - k)) in H by lia.
  rewrite <- !Z.shiftr_shiftr in H by lia.
  rewrite !(Z.shiftr_div_pow2 _ (K - k)) in H by lia.
  assert (Z.shiftr b k / 2 ^ (K - k) <= Z.shiftr a k / 2 ^ (K - k)).
  { apply Z.div_le_mono; [apply Z.pow_pos_nonneg; lia|lia]. }
  lia.
Qed.

Lemma lor_shiftl_add (x f w : Z) :
  0 <= w -> 0 <= f < 2 ^ w -> Z.lor (Z.shiftl x w) f = x * 2 ^ w + f.
Proof.
  intros Hw Hf.
  assert (H0 : Z.land (Z.shiftl x w) f = 0).
  { apply Z.bits_inj'. intros i Hi.
    rewrite Z.land_spec, Z.bits_0, Z.shiftl_spec by lia.
    destruct (Z.lt_ge_cases i w).
    - now rewrite Z.testbit_neg_r by lia.
    - rewrite (bits_above f w) by lia. apply andb_false_r. }
  rewrite <- Z.lxor_lor, <- Z.add_nocarry_lxor by assumption.
  now rewrite Z.shiftl_mul_pow2 by lia.
Qed.

Lemma substitute_high (s e p f : Z) :
  valid_range (s, e) -> 0 <= f < 2 ^ (e - s + 1) -> 0 <= p < 2 ^ 32 ->
  Z.shiftr (substitute s e p f) (32 - e) =
  Z.shiftr p (33 - s) * 2 ^ (e - s + 1) + f.
Proof.
  intros Hv Hf Hp. pose proof Hv as [Hs He]. cbn [fst snd] in Hs, He.
  rewrite <- lor_shiftl_add by lia.
  apply Z.bits_inj'. intros j Hj.
  rewrite Z.shiftr_spec, Z.lor_spec, Z.shiftl_spec by lia.
  destruct (Z.lt_ge_cases j e) as [Hje|Hje].
  - replace (j + (32 - e)) with (32 - (e - j)) by lia.
    rewrite substitute_testbit by (try assumption; lia).
    replace (e - (e - j)) with j by lia.
    destruct (Z.leb_spec s (e - j)); destruct (Z.leb_spec (e - j) e);
      cbn [andb]; try lia.
    + rewrite (Z.testbit_neg_r (Z.shiftr p (33 - s))) by lia. reflexivity.
    + rewrite Z.shiftr_spec by lia. rewrite (bits_above f (e - s + 1)) by lia.
      rewrite orb_false_r. f_equal. lia.
  - pose proof (substitute_bound s e p f Hv Hf) as Hb.
    rewrite (bits_above _ 32 _ Hb) by lia.
    rewrite Z.shiftr_spec by lia.
    rewrite (bits_above p 32), (bits_above f (e - s + 1)) by lia.
    reflexivity.
Qed.

Lemma py_range_ascending (lo hi : Z) : ForallOrdPairs Z.lt (py_range lo hi).
Proof.
  remember (Z.to_nat (hi - lo)) as n eqn:En. revert lo En.
  induction n as [|n IH]; intros lo En.
  - rewrite py_range_empty by lia. constructor.
  - rewrite py_range_cons by lia. constructor.
    + apply Forall_forall. intros x Hx. apply py_range_In in Hx. lia.
    + apply IH. lia.
Qed.

Lemma ForallOrdPairs_map {A B : Type} (R : B -> B -> Prop) (g : A -> B)
      (l : list A) :
  ForallOrdPairs (fun x y => R (g x) (g y)) l -> ForallOrdPairs R (map g l).
Proof.
  induction 1 as [|a l Ha _ IH]; simpl; constructor; [|exact IH].
  apply Forall_forall. intros b Hb. apply in_map_iff in Hb.
  destruct Hb as [y [<- Hy]]. rewrite Forall_forall in Ha. now apply Ha.
Qed.

Lemma expand_step_ascending (s e : Z) (prefixes : list Z) :
  valid_range (s, e) ->
  Forall (fun p => 0 <= p < 2 ^ 32) prefixes ->
  ForallOrdPairs (fun p q => Z.shiftr p (33 - s) < Z.shiftr q (33 - s)) prefixes ->
  ForallOrdPairs (fun c d => Z.shiftr c (32 - e) < Z.shiftr d (32 - e))
                 (expand_step (s, e) prefixes).
Proof.
  intros Hv Hb Hord. pose proof Hv as [Hs He]. cbn [fst snd] in Hs, He.
  induction Hord as [|p ps Hp _ IH]; [constructor|].
  inversion Hb as [|? ? Hpb Hb']; subst.
  change (expand_step (s, e) (p :: ps))
    with (map (substitute s e p) (py_range 0 (2 ^ (e - s + 1)))
          ++ expand_step (s, e) ps).
  apply ForallOrdPairs_app. split; [|split].
  - apply ForallOrdPairs_map.
    eapply ForallOrdPairs_impl; [|apply py_range_ascending].
    intros f1 f2 H1 H2 Hlt. apply py_range_In in H1, H2.
    rewrite !substitute_high by (try assumption; lia). lia.
  - apply IH. assumption.
  - intros c d Hc Hd. apply in_map_iff in Hc.
    destruct Hc as [f1 [<- Hf1]]. apply py_range_In in Hf1.
    apply in_expand_step in Hd. destruct Hd as [q [f2 [Hq [Hf2 ->]]]].
    unfold width in Hf2. cbn [fst snd] in Hf2 |- *.
    rewrite Forall_forall in Hp, Hb'.
    specialize (Hp q Hq). specialize (Hb' q Hq).
    rewrite !substitute_high by (try assumption; lia).
    assert (0 < 2 ^ (e - s + 1)) by (apply Z.pow_pos_nonneg; lia).
    nia.
Qed.

Lemma expand_step_bound (r : BitRange) (prefixes : list Z) :
  valid_range r -> Forall (fun c => 0 <= c < 2 ^ 32) (expand_step r prefixes).
Proof.
  intros Hr. apply Forall_forall. intros c Hc.
  apply in_expand_step in Hc. destruct Hc as [p [f [_ [Hf ->]]]].
  destruct r as [s e]. now apply substitute_bound.
Qed.

Lemma expansion_ascending (ranges : list BitRange) :
  Forall valid_range ranges ->
  ForallOrdPairs (fun r1 r2 => snd r1 < fst r2) ranges ->
  forall K k prefixes,
    0 <= k <= K ->
    (forall r, In r ranges -> 33 - fst r <= K /\ k <= 32 - snd r) ->
    Forall (fun p => 0 <= p < 2 ^ 32) prefixes ->
    ForallOrdPairs (fun p q => Z.shiftr p K < Z.shiftr q K) prefixes ->
    ForallOrdPairs (fun c d => Z.shiftr c k < Z.shiftr d k)
                   (expansion ranges prefixes).
Proof.
  induction 1 as [|[s e] ranges Hr Hv IH]; intros Hasc K k prefixes Hk HK Hb Hord.
  - simpl. eapply ForallOrdPairs_impl; [|exact Hord].
    intros a b _ _ H. now apply (shiftr_lt_weaken a b k K).
  - inversion Hasc as [|? ? Hfirst Hasc']; subst.
    pose proof Hr as [Hs He]. cbn [fst snd] in Hs, He.
    destruct (HK (s, e) ltac:(now left)) as [HKs Hke]. cbn [fst snd] in HKs, Hke.
    cbn [expansion fold_left]. apply (IH Hasc' (32 - e) k).
    + lia.
    + intros r Hr'. split; [|apply HK; now right].
      rewrite Forall_forall in Hfirst. specialize (Hfirst r Hr').
      cbn [snd] in Hfirst. lia.
    + now apply expand_step_bound.
    + apply expand_step_ascending; [assumption|assumption|].
      eapply ForallOrdPairs_impl; [|exact Hord].
      intros a b _ _ H. apply (shiftr_lt_weaken a b (33 - s) K); [lia|exact H].
Qed.

Lemma ForallOrdPairs_StronglySorted {A : Type} (R : A -> A -> Prop) (l : list A) :
  ForallOrdPairs R l -> StronglySorted R l.
Proof. induction 1; constructor; assumption. Qed.

(** From a 32-bit seed and well-formed ranges given in ascending order
    without overlap (as [contiguous_bits] returns them), the candidates
    come out in strictly ascending numeric order. *)
Theorem unroller_ascending (ranges : list BitRange) (seed : Z) :
  Forall valid_range ranges ->
  ForallOrdPairs (fun r1 r2 => snd r1 < fst r2) ranges ->
  0 <= seed < 2 ^ 32 ->
  exists out, unroller ranges [seed] = Ok out /\ StronglySorted Z.lt out.
Proof.
  intros Hv Hasc Hseed. exists (expansion ranges [seed]).
  split; [now apply unroller_ok|].
  apply ForallOrdPairs_StronglySorted.
  assert (H : ForallOrdPairs (fun c d => Z.shiftr c 0 < Z.shiftr d 0)
                             (expansion ranges [seed])).
  { apply (expansion_ascending ranges Hv Hasc 32 0); [lia| | |].
    - intros r Hr. rewrite Forall_forall in Hv. apply Hv in Hr.
      destruct Hr. lia.
    - repeat constructor; lia.
    - repeat constructor. }
  eapply ForallOrdPairs_impl; [|exact H].
  intros a b _ _ Hab. cbv beta in Hab.
  rewrite !Z.shiftr_0_r in Hab. exact Hab.
Qed.

Lemma unroller_ascending_witness :
  exists out,
    unroller [(1, 4); (31, 31)] [0x0A0C0E10] = Ok out /\ StronglySorted Z.lt out.
Proof.
  apply (unroller_ascending [(1, 4); (31, 31)] 0x0A0C0E10).
  - repeat constructor; simpl; lia.
  - repeat constructor; simpl; lia.
  - lia.
Defined.

Lemma expanded_ranges_gap (m : Z) : ForallOrdPairs gap (expanded_ranges m).
Proof.
  pose proof (contiguous_bits_gap m) as Hg. unfold expanded_ranges.
  destruct (py_last (contiguous_bits m)) as [[s e]|] eqn:Hl; [|constructor].
  destruct (e =? 32); [|exact Hg].
  rewrite (py_last_split _ _ Hl) in Hg.
  apply ForallOrdPairs_app in Hg. exact (proj1 Hg).
Qed.

Lemma land_mask_shift (c prefix : Z) :
  0 <= prefix <= 32 -> 0 <= c < 2 ^ 32 ->
  Z.land c (mask_from_slash prefix) =
  Z.shiftr c (32 - prefix) * 2 ^ (32 - prefix).
Proof.
  intros Hp Hc. rewrite <- Z.shiftl_mul_pow2 by lia.
  apply Z.bits_inj'. intros i Hi.
  rewrite Z.land_spec, mask_from_slash_testbit, Z.shiftl_spec by lia.
  destruct (Z.leb_spec (32 - prefix) i); cbn [andb].
  - rewrite Z.shiftr_spec by lia. replace (i - (32 - prefix) + (32 - prefix)) with i by lia.
    destruct (Z.ltb_spec i 32); cbn [andb].
    + replace (0 <? prefix) with true by (symmetry; cmp_cases).
      apply andb_true_r.
    + rewrite (bits_above c 32) by lia. reflexivity.
  - rewrite (Z.testbit_neg_r (Z.shiftr c (32 - prefix))) by lia.
    apply andb_false_r.
Qed.

(** For an address and a non-zero mask that parse, [unroll] lists its
    results by strictly ascending network address. *)
Theorem unroll_ascending (addr mask : string) (a m : Z) :
  ip2long addr = Ok a -> ip2long mask = Ok m -> m <> 0 ->
  exists out,
    unroll addr mask = Ok out /\
    StronglySorted (fun n1 n2 => network_address n1 < network_address n2) out.
Proof.
  intros Ha Hm Hnz.
  assert (Hne : contiguous_bits m <> [])
    by (apply contiguous_bits_nonempty; [exact (ip2long_bound mask m Hm)|exact Hnz]).
  destruct (py_last_nonempty _ Hne) as [[s e] Hl].
  destruct (expanded_ranges_facts m s e Hl) as [HP [Hbefore _]].
  pose proof (expanded_ranges_valid m) as Hv.
  pose proof (ip2long_bound addr a Ha) as Hb.
  assert (Hseed : Forall (fun p => 0 <= p < 2 ^ 32) [a])
    by (constructor; [exact Hb|constructor]).
  rewrite (unroll_result_masked addr mask a m s e Ha Hm Hl).
  eexists. split; [reflexivity|].
  apply ForallOrdPairs_StronglySorted, ForallOrdPairs_map.
  cbn [network_address].
  assert (Hasc : ForallOrdPairs (fun r1 r2 => snd r1 < fst r2) (expanded_ranges m)).
  { eapply ForallOrdPairs_impl; [|apply expanded_ranges_gap].
    intros r1 r2 _ _ H. unfold gap in H. lia. }
  assert (H : ForallOrdPairs
                (fun c d => Z.shiftr c (32 - result_prefixlen m) <
                            Z.shiftr d (32 - result_prefixlen m))
                (expansion (expanded_ranges m) [a])).
  { apply (expansion_ascending _ Hv Hasc 32 (32 - result_prefixlen m)).
    - lia.
    - intros r Hr. split.
      + rewrite Forall_forall in Hv. apply Hv in Hr. destruct Hr. lia.
      + apply Hbefore in Hr. lia.
    - exact Hseed.
    - repeat constructor. }
  pose proof (expansion_bound _ Hv [a] Hseed) as Hcb.
  rewrite Forall_forall in Hcb.
  eapply ForallOrdPairs_impl; [|exact H].
  intros c d Hc Hd Hlt. cbv beta in Hlt.
  rewrite !land_mask_shift by (try assumption; apply Hcb; assumption).
  assert (0 < 2 ^ (32 - result_prefixlen m)) by (apply Z.pow_pos_nonneg; lia).
  nia.
Qed.

Lemma unroll_ascending_witness :
  exists out,
    unroll "10.12.14.16" "0.1.128.1" = Ok out /\
    StronglySorted (fun n1 n2 => network_address n1 < network_address n2) out.
Proof.
  apply (unroll_ascending "10.12.14.16" "0.1.128.1" 0x0A0C0E10 0x00018001);
    [reflexivity|reflexivity|lia].
Defined.

(** ** unroll: shape of the results *)

(** Every network [unroll] returns is well formed: its prefix length lies
    between 0 and 32, its address is a 32-bit value with no bit set after
    the prefix, and the address itself matches the wildcard. *)
Theorem unroll_results_valid (addr mask : string) (a m : Z) (out : list IPv4Network) :
  ip2long addr = Ok a -> ip2long mask = Ok m -> unroll addr mask = Ok out ->
  Forall (fun n => 0 <= prefixlen n <= 32 /\
                   0 <= network_address n < 2 ^ 32 /\
                   in_network n (network_address n) /\
                   wildcard_match a m (network_address n)) out.
Proof.
  intros Ha Hm Hout.
  destruct (Z.eq_dec m 0) as [->|Hnz].
  { unfold unroll in Hout. rewrite Ha, Hm in Hout. discriminate. }
  assert (Hne : contiguous_bits m <> [])
    by (apply contiguous_bits_nonempty; [exact (ip2long_bound mask m Hm)|exact Hnz]).
  destruct (py_last_nonempty _ Hne) as [[s e] Hl].
  destruct (expanded_ranges_facts m s e Hl) as [HP [Hbefore [Hcov _]]].
  pose proof (expanded_ranges_valid m) as Hv.
  pose proof (ip2long_bound addr a Ha) as Hb.
  rewrite (unroll_result_masked addr mask a m s e Ha Hm Hl) in Hout.
  apply (f_equal (fun r => match r with Ok l => l | Raise _ => [] end)) in Hout.
  cbv beta iota in Hout. subst out. apply Forall_forall. intros n Hn.
  apply in_map_iff in Hn. destruct Hn as [c [<- Hc]].
  cbn [prefixlen network_address].
  assert (Hin : in_network
                  (mkNetwork (Z.land c (mask_from_slash (result_prefixlen m)))
                             (result_prefixlen m))
                  (Z.land c (mask_from_slash (result_prefixlen m)))).
  { unfold in_network. cbn [prefixlen network_address].
    rewrite ip_int_from_prefix_mask by assumption.
    rewrite <- Z.land_assoc, Z.land_diag. reflexivity. }
  split; [exact HP|]. split; [apply masked_bound|]. split; [exact Hin|].
  apply (wildcard_match_candidates _ _ _ _ HP Hv Hb Hcov);
    [apply masked_bound|].
  exists c. split; [exact Hc|].
  rewrite <- Z.land_assoc, Z.land_diag. reflexivity.
Qed.

Lemma unroll_results_valid_witness :
  Forall (fun n => 0 <= prefixlen n <= 32 /\
                   0 <= network_address n < 2 ^ 32 /\
                   in_network n (network_address n) /\
                   wildcard_match 0x0A0C0E10 0x00010001 (network_address n))
         [mkNetwork 0x0A0C0E10 31; mkNetwork 0x0A0D0E10 31].
Proof.
  apply (unroll_results_valid "10.12.14.16" "0.1.0.1" 0x0A0C0E10 0x00010001);
    reflexivity.
Defined.

Lemma low_bits_ranges (k : Z) :
  1 <= k <= 32 -> contiguous_bits (2 ^ k - 1) = [(33 - k, 32)].
Proof.
  intros Hk. assert (H : In k (py_range 1 33)) by (apply py_range_In; lia).
  vm_compute in H.
  repeat (destruct H as [<-|H]; [vm_compute; reflexivity|]).
  contradiction.
Qed.

(** An ordinary wildcard, whose set bits are the [k] low ones, unrolls to
    the single network of prefix length [32 - k] that holds the address;
    with all 32 bits set this is 0.0.0.0/0 whatever the address. *)
Theorem unroll_plain_wildcard (addr mask : string) (a k : Z) :
  ip2long addr = Ok a -> 1 <= k <= 32 -> ip2long mask = Ok (2 ^ k - 1) ->
  unroll addr mask =
  Ok [mkNetwork (Z.land a (mask_from_slash (32 - k))) (32 - k)].
Proof.
  intros Ha Hk Hm.
  assert (Hl : py_last (contiguous_bits (2 ^ k - 1)) = Ok (33 - k, 32))
    by (rewrite low_bits_ranges by assumption; reflexivity).
  rewrite (unroll_unfold addr mask a (2 ^ k - 1) (33 - k, 32) Ha Hm Hl).
  cbn [snd]. rewrite Z.eqb_refl, low_bits_ranges by assumption.
  cbn [removelast unroller bind].
  rewrite normalize_subnets by lia.
  replace (33 - k - 1) with (32 - k) by lia. reflexivity.
Qed.

Lemma unroll_plain_wildcard_witness :
  unroll "10.12.14.16" "0.0.0.255" =
  Ok [mkNetwork (Z.land 0x0A0C0E10 (mask_from_slash (32 - 8))) (32 - 8)].
Proof.
  apply (unroll_plain_wildcard "10.12.14.16" "0.0.0.255" 0x0A0C0E10 8);
    [reflexivity|lia|reflexivity].
Defined.

(** ** unroll: the base address only matters through its fixed bits *)

Lemma Forall2_map_same {A B : Type} (R : B -> B -> Prop) (g h : A -> B)
      (l : list A) :
  (forall x, In x l -> R (g x) (h x)) -> Forall2 R (map g l) (map h l).
Proof.
  induction l as [|x l IH]; intros H; simpl; constructor.
  - apply H. now left.
  - apply IH. intros y Hy. apply H. now right.
Qed.

Lemma Forall2_map_eq {A B : Type} (F : A -> B) (l l' : list A) :
  Forall2 (fun c c' => F c = F c') l l' -> map F l = map F l'.
Proof. induction 1; simpl; [reflexivity|congruence]. Qed.

Lemma expand_step_Forall2 (r : BitRange) (others : list BitRange)
      (ps qs : list Z) :
  valid_range r ->
  Forall2 (agree_outside (r :: others)) ps qs ->
  Forall2 (agree_outside others) (expand_step r ps) (expand_step r qs).
Proof.
  intros Hr. induction 1 as [|p q ps qs Hpq _ IH]; [constructor|].
  unfold expand_step in *. cbn [flat_map]. apply Forall2_app; [|exact IH].
  apply Forall2_map_same. intros f Hf. apply py_range_In in Hf.
  intros pos Hpos Hnc. destruct r as [s e]. unfold width in Hf.
  cbn [fst snd] in *. rewrite !substitute_testbit by assumption.
  destruct ((s <=? pos) && (pos <=? e)) eqn:Hin; [reflexivity|].
  apply Hpq; [assumption|]. intros r' [<-|Hr'] Hc; [|exact (Hnc r' Hr' Hc)].
  unfold covers in Hc. cbn [fst snd] in Hc.
  apply andb_false_iff in Hin. destruct Hin as [Hin|Hin];
    [apply Z.leb_gt in Hin|apply Z.leb_gt in Hin]; lia.
Qed.

Lemma expansion_Forall2 (ranges : list BitRange) :
  Forall valid_range ranges ->
  forall extra ps qs,
    Forall2 (agree_outside (ranges ++ extra)) ps qs ->
    Forall2 (agree_outside extra) (expansion ranges ps) (expansion ranges qs).
Proof.
  induction 1 as [|r ranges Hr _ IH]; intros extra ps qs H; [exact H|].
  cbn [expansion fold_left]. apply IH.
  apply expand_step_Forall2; assumption.
Qed.

(** Two base addresses that have the same bits wherever the mask is clear
    give the same result, exception included: [unroll] depends on the
    address only through the bits the mask fixes. *)
Theorem unroll_same_wildcard (addr addr' mask : string) (a a' m : Z) :
  ip2long addr = Ok a -> ip2long addr' = Ok a' -> ip2long mask = Ok m ->
  wildcard_match a m a' ->
  unroll addr mask = unroll addr' mask.
Proof.
  intros Ha Ha' Hm Hw.
  destruct (Z.eq_dec m 0) as [->|Hnz].
  { unfold unroll. rewrite Ha, Ha', Hm. reflexivity. }
  assert (Hne : contiguous_bits m <> [])
    by (apply contiguous_bits_nonempty; [exact (ip2long_bound mask m Hm)|exact Hnz]).
  destruct (py_last_nonempty _ Hne) as [[s e] Hl].
  destruct (expanded_ranges_facts m s e Hl) as [HP [_ [Hcov _]]].
  pose proof (expanded_ranges_valid m) as Hv.
  rewrite (unroll_result_masked addr mask a m s e Ha Hm Hl).
  rewrite (unroll_result_masked addr' mask a' m s e Ha' Hm Hl).
  f_equal. apply Forall2_map_eq.
  set (tail := [(result_prefixlen m + 1, 32)]).
  assert (H0 : Forall2 (agree_outside (expanded_ranges m ++ tail)) [a] [a']).
  { constructor; [|constructor]. intros pos Hpos Hnc.
    rewrite <- !is_bit_on_testbit by lia. symmetry. apply Hw; [assumption|].
    destruct (is_bit_on m pos) eqn:Hb; [|reflexivity]. exfalso.
    apply Hcov in Hb; [|assumption]. destruct Hb as [[r [Hr Hc]]|Hgt].
    - apply (Hnc r); [apply in_or_app; left; exact Hr|exact Hc].
    - apply (Hnc (result_prefixlen m + 1, 32)).
      + apply in_or_app. right. left. reflexivity.
      + unfold covers. cbn [fst snd]. lia. }
  pose proof (expansion_Forall2 _ Hv tail [a] [a'] H0) as H.
  eapply Forall2_impl; [|exact H].
  intros c c' Hag. cbv beta. f_equal.
  apply Z.bits_inj'. intros i Hi.
  rewrite !Z.land_spec, mask_from_slash_testbit by lia.
  destruct ((32 - result_prefixlen m <=? i) && (i <? 32)) eqn:Hbit; cbn [andb];
    [|rewrite !andb_false_r; reflexivity].
  apply andb_true_iff in Hbit. destruct Hbit as [H1 H2].
  apply Z.leb_le in H1. apply Z.ltb_lt in H2.
  replace i with (32 - (32 - i)) by lia.
  rewrite (Hag (32 - i)); [reflexivity|lia|].
  intros r [<-|[]] Hc. unfold covers in Hc. cbn [fst snd] in Hc. lia.
Qed.

Lemma unroll_same_wildcard_witness :
  unroll "10.12.14.16" "0.1.0.1" = unroll "10.13.14.17" "0.1.0.1".
Proof.
  apply (unroll_same_wildcard "10.12.14.16" "10.13.14.17" "0.1.0.1"
           0x0A0C0E10 0x0A0D0E11 0x00010001); try reflexivity.
  intros pos Hpos Hoff.
  assert (H : In pos (py_range 1 33)) by (apply py_range_In; lia).
  vm_compute in H.
  repeat (destruct H as [<-|H]; [first [reflexivity | discriminate Hoff]|]).
  contradiction.
Defined.
